(** * Console checkers: board, rule engine and turn loop

    A shallow embedding of [checkersGame.cpp].  The classes [Piece], [Board]
    and [CheckersGame] become records and functions over them; the 8x8 grid
    of nullable [Piece*] is a finite map from coordinates to pieces (a null
    slot is an absent key); C++ [int] coordinates are [Z], with [/] and [%]
    written as the truncating [Z.quot] and [Z.rem].  The turn loop of
    [CheckersGame::run] is a step function over input lines; of what the
    program prints, only the message by which the loop turns a line down
    is kept.  The grid is indexed directly only in [movePiece] and
    [removePiece], which the program calls with coordinates inside the
    board.  [tetris_game.cpp] is a separate program and is left out. *)

From Stdlib Require Import ZArith List Bool Lia String Ascii DecimalString.
From stdpp Require Import base option list gmap.

Local Open Scope Z_scope.

#[local] Set Warnings "-clear-no-such-hyp".

(** ** 1. Enums and constants *)

Inductive Player : Set := NONE | RED | BLACK.

Global Instance Player_eq_dec : EqDecision Player.
Proof. solve_decision. Defined.

Definition Player_eqb (p q : Player) : bool := bool_decide (p = q).

Definition BOARD_SIZE : Z := 8.

(** ** 2. Piece *)

Record Piece : Set := mkPiece
  { owner : Player;
    isKing : bool;
    row : Z;
    col : Z }.

Global Instance Piece_eq_dec : EqDecision Piece.
Proof. solve_decision. Defined.

(** [Piece(Player p, int r, int c)] *)
Definition newPiece (p : Player) (r c : Z) : Piece :=
  {| owner := p; isKing := false; row := r; col := c |}.

Definition makeKing (p : Piece) : Piece :=
  {| owner := owner p; isKing := true; row := row p; col := col p |}.

Definition setPosition (p : Piece) (r c : Z) : Piece :=
  {| owner := owner p; isKing := isKing p; row := r; col := c |}.

(** ** 3. Board *)

(** [Piece* grid[BOARD_SIZE][BOARD_SIZE]]: slot [(r, c)] is the key [(r, c)];
    [nullptr] is an absent key.  The source indexes the grid directly only
    with coordinates already checked to lie in [0, 8). *)
Abbreviation Board := (gmap (Z * Z) Piece).

(** The index ranges of the [for] loops. *)
Definition indices (lo hi : Z) : list Z := seqZ lo (hi - lo).

Definition allSquares : list (Z * Z) :=
  r ← indices 0 BOARD_SIZE; c ← indices 0 BOARD_SIZE; [(r, c)].

(** [Board()]: every slot null. *)
Definition emptyBoard : Board := ∅.

(** The clearing loop at the head of [initializeBoard]. *)
Definition clearGrid (b : Board) : Board :=
  foldl (λ b rc, delete rc b) b allSquares.

(** One of the two placement loops of [initializeBoard]: rows [lo .. hi - 1],
    a new piece of [who] on every square with [(r + c) % 2 != 0]. *)
Definition placePieces (who : Player) (lo hi : Z) (b : Board) : Board :=
  foldl (λ b r,
    foldl (λ b c,
      if negb (Z.rem (r + c) 2 =? 0) then <[(r, c) := newPiece who r c]> b
      else b) b (indices 0 BOARD_SIZE)) b (indices lo hi).

Definition initializeBoard (b : Board) : Board :=
  placePieces RED 5 BOARD_SIZE (placePieces BLACK 0 3 (clearGrid b)).

Definition getPiece (b : Board) (r c : Z) : option Piece :=
  if (r <? 0) || (r >=? BOARD_SIZE) || (c <? 0) || (c >=? BOARD_SIZE)
  then None
  else b !! (r, c).

(** [grid[r2][c2] = piece; grid[r1][c1] = nullptr; piece->setPosition(r2, c2)] *)
Definition movePiece (b : Board) (r1 c1 r2 c2 : Z) : Board :=
  match b !! (r1, c1) with
  | Some piece => delete (r1, c1) (<[(r2, c2) := setPosition piece r2 c2]> b)
  | None => b
  end.

Definition removePiece (b : Board) (r c : Z) : Board :=
  match b !! (r, c) with
  | Some _ => delete (r, c) b
  | None => b
  end.

(** ** 4. Game manager *)

Record CheckersGame : Type := mkGame
  { board : Board;
    currentPlayer : Player }.

Record Move : Set := mkMove
  { startR : Z; startC : Z; endR : Z; endC : Z }.

Global Instance Move_eq_dec : EqDecision Move.
Proof. solve_decision. Defined.

Definition isInBounds (r c : Z) : bool :=
  (r >=? 0) && (r <? BOARD_SIZE) && (c >=? 0) && (c <? BOARD_SIZE).

(** The direction test shared by both validity checks: the two early
    [return false] of the [if (!piece->isKing)] block. *)
Definition wrongDirection (piece : Piece) (r1 r2 : Z) : bool :=
  negb (isKing piece) &&
  ((Player_eqb (owner piece) RED && (r2 - r1 >? 0)) ||
   (Player_eqb (owner piece) BLACK && (r2 - r1 <? 0))).

Definition isSimpleMoveValid (b : Board) (r1 c1 r2 c2 : Z) : bool :=
  match getPiece b r1 c1, getPiece b r2 c2 with
  | Some piece, None =>
      if negb (Z.abs (r2 - r1) =? 1) || negb (Z.abs (c2 - c1) =? 1) then false
      else if wrongDirection piece r1 r2 then false
      else true
  | _, _ => false
  end.

Definition isJumpValid (b : Board) (r1 c1 r2 c2 : Z) : bool :=
  match getPiece b r1 c1, getPiece b r2 c2 with
  | Some piece, None =>
      if negb (Z.abs (r2 - r1) =? 2) || negb (Z.abs (c2 - c1) =? 2) then false
      else
        let jumpedR := Z.quot (r1 + r2) 2 in
        let jumpedC := Z.quot (c1 + c2) 2 in
        match getPiece b jumpedR jumpedC with
        | None => false
        | Some jumpedPiece =>
            if Player_eqb (owner jumpedPiece) (owner piece)
               || Player_eqb (owner jumpedPiece) NONE
            then false
            else if wrongDirection piece r1 r2 then false
            else true
        end
  | _, _ => false
  end.

Definition jumpDirections : list (Z * Z) :=
  [(-2, -2); (-2, 2); (2, -2); (2, 2)].

Definition simpleDirections : list (Z * Z) :=
  [(-1, -1); (-1, 1); (1, -1); (1, 1)].

Definition getPossibleJumpsForPiece (b : Board) (r c : Z) : list Move :=
  match getPiece b r c with
  | None => []
  | Some _ =>
      d ← jumpDirections;
      let r2 := r + d.1 in
      let c2 := c + d.2 in
      if isInBounds r2 c2 && isJumpValid b r c r2 c2
      then [mkMove r c r2 c2] else []
  end.

(** The square test of both enumeration loops:
    [piece && piece->owner == currentPlayer]. *)
Definition ownedByCurrent (g : CheckersGame) (r c : Z) : bool :=
  match getPiece (board g) r c with
  | Some piece => Player_eqb (owner piece) (currentPlayer g)
  | None => false
  end.

Definition getAllPossibleJumps (g : CheckersGame) : list Move :=
  r ← indices 0 BOARD_SIZE;
  c ← indices 0 BOARD_SIZE;
  if ownedByCurrent g r c then getPossibleJumpsForPiece (board g) r c else [].

Definition getAllPossibleSimpleMoves (g : CheckersGame) : list Move :=
  r ← indices 0 BOARD_SIZE;
  c ← indices 0 BOARD_SIZE;
  if ownedByCurrent g r c then
    d ← simpleDirections;
    let r2 := r + d.1 in
    let c2 := c + d.2 in
    if isInBounds r2 c2 && isSimpleMoveValid (board g) r c r2 c2
    then [mkMove r c r2 c2] else []
  else [].

(** [(currentPlayer == RED) ? BLACK : RED] *)
Definition otherPlayer (p : Player) : Player :=
  if Player_eqb p RED then BLACK else RED.

Definition switchPlayer (g : CheckersGame) : CheckersGame :=
  {| board := board g; currentPlayer := otherPlayer (currentPlayer g) |}.

(** Step 4 of [executeMove]: the kinging test on the piece now at
    [(r2, c2)]. *)
Definition kingIfBackRank (b : Board) (r2 c2 : Z) : Board :=
  match getPiece b r2 c2 with
  | Some piece =>
      if Player_eqb (owner piece) RED && (r2 =? 0)
      then <[(r2, c2) := makeKing piece]> b
      else if Player_eqb (owner piece) BLACK && (r2 =? BOARD_SIZE - 1)
      then <[(r2, c2) := makeKing piece]> b
      else b
  | None => b
  end.

(** Steps 4 and 5 of [executeMove], reached when no further jump is
    forced: kinging, then the change of player; the call returns [false]. *)
Definition finishTurn (g : CheckersGame) (b : Board) (r2 c2 : Z)
  : bool * CheckersGame :=
  (false,
   switchPlayer
     {| board := kingIfBackRank b r2 c2; currentPlayer := currentPlayer g |}).

(** [std::vector::empty] *)
Definition isEmpty {A : Type} (l : list A) : bool :=
  match l with
  | [] => true
  | _ :: _ => false
  end.

(** Returns the [bool] of the source (true: the same player must jump
    again) and the game after the call. *)
Definition executeMove (g : CheckersGame) (r1 c1 r2 c2 : Z)
  : bool * CheckersGame :=
  let b1 := movePiece (board g) r1 c1 r2 c2 in
  if Z.abs (r2 - r1) =? 2 then
    let capturedR := Z.quot (r1 + r2) 2 in
    let capturedC := Z.quot (c1 + c2) 2 in
    let b2 := removePiece b1 capturedR capturedC in
    if negb (isEmpty (getPossibleJumpsForPiece b2 r2 c2))
    then (true, {| board := b2; currentPlayer := currentPlayer g |})
    else finishTurn g b2 r2 c2
  else finishTurn g b1 r2 c2.

(** The counting loop of [checkForWin]: the pair is
    [(redPieces, blackPieces)]. *)
Definition countPieces (b : Board) : Z * Z :=
  foldl (λ n rc,
    match getPiece b rc.1 rc.2 with
    | Some p =>
        let red := if Player_eqb (owner p) RED then n.1 + 1 else n.1 in
        let black := if Player_eqb (owner p) BLACK then n.2 + 1 else n.2 in
        (red, black)
    | None => n
    end) (0, 0) allSquares.

Definition checkForWin (g : CheckersGame) : Player :=
  let n := countPieces (board g) in
  if n.1 =? 0 then BLACK
  else if n.2 =? 0 then RED
  else if isEmpty (getAllPossibleJumps g)
          && isEmpty (getAllPossibleSimpleMoves g)
  then otherPlayer (currentPlayer g)
  else NONE.

(** *** Input lines *)

(** [input[i]] as an [int]; the index one past the end reads the
    terminating zero. *)
Definition charAt (input : string) (i : nat) : Z :=
  match String.get i input with
  | Some a => Z.of_N (N_of_ascii a)
  | None => 0
  end.

(** [std::toupper] in the C locale. *)
Definition toupper (ch : Z) : Z :=
  if (97 <=? ch) && (ch <=? 122) then ch - 32 else ch.

Definition parseInput (input : string) : option (Z * Z * Z * Z) :=
  if (String.length input <? 7)%nat then None
  else
    let c1 := toupper (charAt input 0) - 65 in
    let r1 := charAt input 1 - 49 in
    if negb (String.eqb (String.substring 2 4 input) " to ") then None
    else
      let c2 := toupper (charAt input 6) - 65 in
      let r2 := charAt input 7 - 49 in
      if negb (isInBounds r1 c1) || negb (isInBounds r2 c2) then None
      else if (r1 =? r2) && (c1 =? c2) then None
      else Some (r1, c1, r2, c2).

(** *** The turn loop of [run] *)

(** The line [run] prints when it turns a line down. *)
Inductive Rejection : Set :=
  | InvalidInput        (* Invalid input format or coordinates. *)
  | InvalidSelection    (* That square is empty or doesn't belong to you. *)
  | InvalidForcedJump   (* Invalid jump. You must capture an opponent's piece. *)
  | JumpMandatory       (* A jump is available and MUST be taken. *)
  | InvalidJump         (* Invalid jump (no opponent piece to capture). *)
  | InvalidSimpleMove.  (* Invalid simple move. *)

(** What one pass of the inner [while (!turnComplete)] loop did with its
    line: turned it down, or executed the move with [keepJumping] true
    ([MustKeepJumping]) or with [turnComplete] true ([TurnComplete]). *)
Inductive Outcome : Set :=
  | Rejected (why : Rejection)
  | MustKeepJumping
  | TurnComplete.

Global Instance Rejection_eq_dec : EqDecision Rejection.
Proof. solve_decision. Defined.

Global Instance Outcome_eq_dec : EqDecision Outcome.
Proof. solve_decision. Defined.

(** The value [executeMove] hands back to the loop after a jump. *)
Definition afterJump (res : bool * CheckersGame) : Outcome * CheckersGame :=
  (if res.1 then MustKeepJumping else TurnComplete, res.2).

(** The body of the inner loop from "1. Basic checks" on, for coordinates
    that [parseInput] delivered; [jumpIsForced] is the flag computed before
    the inner loop was entered. *)
Definition submitMove (g : CheckersGame) (jumpIsForced : bool)
    (r1 c1 r2 c2 : Z) : Outcome * CheckersGame :=
  if negb (ownedByCurrent g r1 c1) then (Rejected InvalidSelection, g)
  else
    let isJump := Z.abs (r2 - r1) =? 2 in
    if jumpIsForced then
      if isJump then
        if isJumpValid (board g) r1 c1 r2 c2
        then afterJump (executeMove g r1 c1 r2 c2)
        else (Rejected InvalidForcedJump, g)
      else (Rejected JumpMandatory, g)
    else
      if isJump then
        if isJumpValid (board g) r1 c1 r2 c2
        then afterJump (executeMove g r1 c1 r2 c2)
        else (Rejected InvalidJump, g)
      else if isSimpleMoveValid (board g) r1 c1 r2 c2
      then (TurnComplete, (executeMove g r1 c1 r2 c2).2)
      else (Rejected InvalidSimpleMove, g).

(** Where the loop stands: inside the inner loop waiting for a line, with
    the flag of this turn; or left, by a win or by [exit]. *)
Inductive Status : Set :=
  | AwaitingMove (jumpIsForced : bool)
  | Won (winner : Player)
  | Exited.

Record RunState : Type := mkRun
  { game : CheckersGame;
    status : Status }.

(** [CheckersGame() : currentPlayer(RED)], with the board of [Board()]. *)
Definition newGame : CheckersGame :=
  {| board := emptyBoard; currentPlayer := RED |}.

(** The head of the outer [while (true)] loop: the win test, then the flag
    for the turn. *)
Definition turnStart (g : CheckersGame) : RunState :=
  match checkForWin g with
  | NONE =>
      {| game := g;
         status := AwaitingMove (negb (isEmpty (getAllPossibleJumps g))) |}
  | winner => {| game := g; status := Won winner |}
  end.

(** The game once [run] has called [board.initializeBoard()]. *)
Definition initialGame : CheckersGame :=
  {| board := initializeBoard (board newGame);
     currentPlayer := currentPlayer newGame |}.

(** [run] up to its first read. *)
Definition runStart : RunState := turnStart initialGame.

(** One line read by the inner loop.  [None]: the loop has ended and reads
    nothing.  The outcome is [None] for [exit] and [quit]. *)
Definition step (st : RunState) (input : string)
  : option (option Outcome * RunState) :=
  match status st with
  | AwaitingMove jumpIsForced =>
      if String.eqb input "exit" || String.eqb input "quit"
      then Some (None, {| game := game st; status := Exited |})
      else
        match parseInput input with
        | None => Some (Some (Rejected InvalidInput), st)
        | Some (r1, c1, r2, c2) =>
            let res := submitMove (game st) jumpIsForced r1 c1 r2 c2 in
            match res.1 with
            | TurnComplete => Some (Some res.1, turnStart res.2)
            | _ =>
                Some (Some res.1,
                      {| game := res.2;
                         status := AwaitingMove jumpIsForced |})
            end
        end
  | _ => None
  end.

(** The run over the lines typed so far; lines typed after the loop has
    ended are not read. *)
Definition runOn (inputs : list string) : RunState :=
  foldl (λ st input,
    match step st input with
    | Some (_, st') => st'
    | None => st
    end) runStart inputs.

(** *** Display and square names *)

Inductive SquareType : Set :=
  | EMPTY | RED_PIECE | BLACK_PIECE | RED_KING | BLACK_KING.

(** [PIECE_SYMBOLS[]], read at a [SquareType]. *)
Definition PIECE_SYMBOLS (t : SquareType) : ascii :=
  match t with
  | EMPTY => " "
  | RED_PIECE => "R"
  | BLACK_PIECE => "B"
  | RED_KING => "K"
  | BLACK_KING => "k"
  end%char.

Definition getSymbol (p : Piece) : ascii :=
  if Player_eqb (owner p) NONE then " "%char
  else if isKing p then
    if Player_eqb (owner p) RED then PIECE_SYMBOLS RED_KING
    else PIECE_SYMBOLS BLACK_KING
  else
    if Player_eqb (owner p) RED then PIECE_SYMBOLS RED_PIECE
    else PIECE_SYMBOLS BLACK_PIECE.

(** The line break of [std::endl]. *)
Definition endl : string := String (ascii_of_nat 10) EmptyString.

(** [std::cout << n] for an [int]. *)
Definition showInt (n : Z) : string := NilZero.string_of_int (Z.to_int n).

(** What [displayBoard] prints for the slot [(i, j)]. *)
Definition displayCell (b : Board) (i j : Z) : string :=
  match b !! (i, j) with
  | Some piece => String " " (String (getSymbol piece) EmptyString)
  | None =>
      if negb (Z.rem (i + j) 2 =? 0) then " ."%string else "  "%string
  end.

(** One pass of the outer loop of [displayBoard]: the row number, the eight
    slots, the closing bar. *)
Definition displayRow (b : Board) (i : Z) : string :=
  (showInt (i + 1) ++ " |"
   ++ foldl (λ out j, out ++ displayCell b i j) "" (indices 0 BOARD_SIZE)
   ++ " |" ++ endl)%string.

(** The text [displayBoard] sends to the console. *)
Definition displayBoard (b : Board) : string :=
  (endl ++ "    A B C D E F G H (Columns)" ++ endl
   ++ "  -----------------" ++ endl
   ++ foldl (λ out i, out ++ displayRow b i) "" (indices 0 BOARD_SIZE)
   ++ "  -----------------" ++ endl)%string.

(** A square as [executeMove] prints it: [(char)('A' + c)] followed by
    [r + 1]. *)
Definition squareName (r c : Z) : string :=
  String (ascii_of_N (Z.to_N (65 + c))) (showInt (r + 1)).

(** A move in the input format [run] announces:
    [COLROW] to [COLROW]. *)
Definition moveText (r1 c1 r2 c2 : Z) : string :=
  (squareName r1 c1 ++ " to " ++ squareName r2 c2)%string.

(** * Vocabulary of the statements *)

(** The directionality rule: a man of Red moves to a smaller row index, a
    man of Black to a larger one; a king moves either way. *)
Definition directionOk (piece : Piece) (r1 r2 : Z) : Prop :=
  isKing piece = false →
  (owner piece = RED → r2 < r1) ∧ (owner piece = BLACK → r1 < r2).

(** A jump of the player to move, in the words of the rules: own piece on
    the start square; target on the board, empty and two squares away on
    a diagonal; a piece of the other side on the square in between;
    direction respected by a man. *)
Definition legalJump (g : CheckersGame) (m : Move) : Prop :=
  ∃ piece captive,
    getPiece (board g) (startR m) (startC m) = Some piece ∧
    owner piece = currentPlayer g ∧
    isInBounds (endR m) (endC m) = true ∧
    getPiece (board g) (endR m) (endC m) = None ∧
    Z.abs (endR m - startR m) = 2 ∧ Z.abs (endC m - startC m) = 2 ∧
    getPiece (board g) ((startR m + endR m) / 2) ((startC m + endC m) / 2)
      = Some captive ∧
    owner captive = otherPlayer (currentPlayer g) ∧
    directionOk piece (startR m) (endR m).

(** A simple move of the player to move, likewise. *)
Definition legalSimpleMove (g : CheckersGame) (m : Move) : Prop :=
  ∃ piece,
    getPiece (board g) (startR m) (startC m) = Some piece ∧
    owner piece = currentPlayer g ∧
    isInBounds (endR m) (endC m) = true ∧
    getPiece (board g) (endR m) (endC m) = None ∧
    Z.abs (endR m - startR m) = 1 ∧ Z.abs (endC m - startC m) = 1 ∧
    directionOk piece (startR m) (endR m).

(** Some square of the board holds a piece of [who]. *)
Definition hasPiece (who : Player) (b : Board) : Prop :=
  ∃ r c p, getPiece b r c = Some p ∧ owner p = who.

(** Every piece knows the slot it stands on, and the light squares (those
    with [r + c] even) are empty. *)
Definition boardInv (b : Board) : Prop :=
  (∀ r c p, getPiece b r c = Some p → row p = r ∧ col p = c) ∧
  (∀ r c, Z.Even (r + c) → getPiece b r c = None).

(** The promotion rule: Red on row 0, Black on row 7. *)
Definition promotes (p : Piece) (r : Z) : Prop :=
  (owner p = RED ∧ r = 0) ∨ (owner p = BLACK ∧ r = 7).

(** The board once steps 1 and 2 of [executeMove] are done: the piece
    relocated and, after a jump, the piece in between removed. *)
Definition afterRelocation (b : Board) (r1 c1 r2 c2 : Z) : Board :=
  let b1 := movePiece b r1 c1 r2 c2 in
  if Z.abs (r2 - r1) =? 2
  then removePiece b1 (Z.quot (r1 + r2) 2) (Z.quot (c1 + c2) 2)
  else b1.

(** The test of step 3, on that board. *)
Definition mustContinue (b : Board) (r1 c1 r2 c2 : Z) : bool :=
  (Z.abs (r2 - r1) =? 2)
  && negb (isEmpty (getPossibleJumpsForPiece (afterRelocation b r1 c1 r2 c2)
                      r2 c2)).

(** The piece on [(r, c)] has a jump: what a non-empty
    [getPossibleJumpsForPiece] says. *)
Definition canJumpFrom (b : Board) (r c : Z) : Prop :=
  ∃ r' c', isInBounds r' c' = true ∧ isJumpValid b r c r' c' = true.

(** The states the loop passes through when its outer loop is entered with
    the game [g0]. *)
Inductive ReachableFrom (g0 : CheckersGame) : RunState → Prop :=
  | reach_head : ReachableFrom g0 (turnStart g0)
  | reach_step st input out st' :
      ReachableFrom g0 st →
      step st input = Some (out, st') →
      ReachableFrom g0 st'.

(** The states of an actual run of the program. *)
Definition Reachable : RunState → Prop := ReachableFrom initialGame.

(** The flag of the turn says whether the player to move has a jump. *)
Definition flagAgrees (st : RunState) : Prop :=
  ∀ jf, status st = AwaitingMove jf →
        jf = negb (isEmpty (getAllPossibleJumps (game st))).

(** A position of an actual game in which Red must capture: after
    [C6 to D5] and [B3 to C4] the Red piece on D5 can jump to B3. *)
Definition captureState : RunState := runOn ["C6 to D5"; "B3 to C4"]%string.

(** A position of an actual game in which Black must capture and has two
    pieces that can: the one on B3, whose jump to D5 can be followed by a
    second jump to F7, and the one on H5. *)
Definition chainState : RunState :=
  runOn ["E6 to D5"; "F3 to G4"; "F7 to E6"; "G4 to H5"; "D5 to C4"]%string.

(** The run of [chainState] continued by Black's jump [B3 to D5]. *)
Definition chainContinuation : RunState :=
  runOn ["E6 to D5"; "F3 to G4"; "F7 to E6"; "G4 to H5"; "D5 to C4";
         "B3 to D5"]%string.

(** A Red man on (2, 1) that can capture into its back rank, on (0, 3),
    where a second Black piece stands next to it with an empty square
    behind. *)
Definition backRankGame : CheckersGame :=
  {| board :=
       <[(2, 1) := newPiece RED 2 1]>
         (<[(1, 2) := newPiece BLACK 1 2]>
            (<[(1, 4) := newPiece BLACK 1 4]> emptyBoard));
     currentPlayer := RED |}.

(** The piece [initializeBoard] leaves on a square of the board: a Black
    man on the dark squares of rows 0 to 2, a Red man on those of rows
    5 to 7. *)
Definition startingPiece (r c : Z) : option Piece :=
  if negb (Z.rem (r + c) 2 =? 0) then
    if r <? 3 then Some (newPiece BLACK r c)
    else if 5 <=? r then Some (newPiece RED r c)
    else None
  else None.

(** What a slot adds to the count of [who]. *)
Definition counts (who : Player) (slot : option Piece) : Z :=
  match slot with
  | Some p => if Player_eqb (owner p) who then 1 else 0
  | None => 0
  end.

(** The number of squares of [l] on which [b] has a piece of [who]. *)
Definition tally (who : Player) (b : Board) (l : list (Z * Z)) : Z :=
  foldr (λ rc n, counts who (getPiece b rc.1 rc.2) + n) 0 l.

(** Every piece standing on its owner's far row is a king. *)
Definition backRankCrowned (b : Board) : Prop :=
  ∀ r c p, getPiece b r c = Some p → promotes p r → isKing p = true.

(** Every piece belongs to Red or to Black. *)
Definition ownersKnown (b : Board) : Prop :=
  ∀ r c p, getPiece b r c = Some p → owner p ≠ NONE.

(** The loop executed the move: it did not turn the line down. *)
Definition accepted (o : Outcome) : Prop :=
  o = MustKeepJumping ∨ o = TurnComplete.

(** The text of the move parses back to the move, and is neither of the
    two words that leave the game. *)
Definition moveTextParses (r1 c1 r2 c2 : Z) : bool :=
  bool_decide (parseInput (moveText r1 c1 r2 c2) = Some (r1, c1, r2, c2))
  && negb (String.eqb (moveText r1 c1 r2 c2) "exit")
  && negb (String.eqb (moveText r1 c1 r2 c2) "quit").

(** The same for every pair of different squares of the board. *)
Definition allMoveTextsParse : bool :=
  forallb (λ r1, forallb (λ c1, forallb (λ r2, forallb (λ c2,
    ((r1 =? r2) && (c1 =? c2)) || moveTextParses r1 c1 r2 c2)
    (indices 0 BOARD_SIZE)) (indices 0 BOARD_SIZE))
    (indices 0 BOARD_SIZE)) (indices 0 BOARD_SIZE).

(** Red, to move with its only piece, can capture the only Black piece. *)
Definition lastCaptureState : RunState :=
  {| game :=
       {| board :=
            <[(2, 1) := newPiece RED 2 1]>
              (<[(1, 2) := newPiece BLACK 1 2]> emptyBoard);
          currentPlayer := RED |};
     status := AwaitingMove true |}.

(** The strings [f x], for [x] through [l], one after the other. *)
Definition joined {A : Type} (f : A → string) (l : list A) : string :=
  foldr (λ x rest, (f x ++ rest)%string) EmptyString l.

(** * Properties *)

Example initial_piece_count :
  size (initializeBoard emptyBoard) = 24%nat.
Proof. vm_compute. reflexivity. Qed.

(** ** Squares and lookups *)

Lemma isInBounds_spec r c :
  isInBounds r c = true ↔ 0 ≤ r < 8 ∧ 0 ≤ c < 8.
Proof. unfold isInBounds, BOARD_SIZE. lia. Qed.

Lemma isInBounds_false r c :
  isInBounds r c = false ↔ ¬ (0 ≤ r < 8 ∧ 0 ≤ c < 8).
Proof. rewrite <- isInBounds_spec. destruct (isInBounds r c); naive_solver. Qed.

Lemma getPiece_unfold b r c :
  getPiece b r c = if isInBounds r c then b !! (r, c) else None.
Proof.
  unfold getPiece, isInBounds, BOARD_SIZE.
  destruct (r <? 0) eqn:?, (r >=? 8) eqn:?, (c <? 0) eqn:?, (c >=? 8) eqn:?,
    (r >=? 0) eqn:?, (r <? 8) eqn:?, (c >=? 0) eqn:?, (c <? 8) eqn:?;
    simpl; try reflexivity; lia.
Qed.

Lemma getPiece_Some b r c p :
  getPiece b r c = Some p ↔ isInBounds r c = true ∧ b !! (r, c) = Some p.
Proof.
  rewrite getPiece_unfold. destruct (isInBounds r c); intuition congruence.
Qed.

Lemma getPiece_in_bounds b r c :
  isInBounds r c = true → getPiece b r c = b !! (r, c).
Proof. intros H. by rewrite getPiece_unfold, H. Qed.

Lemma elem_of_indices x lo hi : x ∈ indices lo hi ↔ lo ≤ x < hi.
Proof. unfold indices. rewrite elem_of_seqZ. lia. Qed.

Lemma elem_of_allSquares r c :
  (r, c) ∈ allSquares ↔ isInBounds r c = true.
Proof.
  unfold allSquares. rewrite isInBounds_spec, list_elem_of_bind.
  split.
  - intros (r' & Hc & Hr). apply list_elem_of_bind in Hc as (c' & Hrc & Hc).
    apply list_elem_of_singleton in Hrc. injection Hrc as -> ->.
    apply elem_of_indices in Hr, Hc. unfold BOARD_SIZE in *. lia.
  - intros [Hr Hc]. exists r. split; [|apply elem_of_indices; unfold BOARD_SIZE; lia].
    apply list_elem_of_bind. exists c.
    split; [apply list_elem_of_singleton; reflexivity|].
    apply elem_of_indices; unfold BOARD_SIZE; lia.
Qed.

Lemma Player_eqb_eq p q : Player_eqb p q = true ↔ p = q.
Proof. unfold Player_eqb. apply bool_decide_eq_true. Qed.

Lemma Player_eqb_neq p q : Player_eqb p q = false ↔ p ≠ q.
Proof. unfold Player_eqb. apply bool_decide_eq_false. Qed.

Lemma isEmpty_true {A} (l : list A) : isEmpty l = true ↔ l = [].
Proof. destruct l; simpl; naive_solver. Qed.

Lemma isEmpty_false {A} (l : list A) : isEmpty l = false ↔ l ≠ [].
Proof. destruct l; simpl; naive_solver. Qed.

Lemma otherPlayer_RED : otherPlayer RED = BLACK.
Proof. reflexivity. Qed.

Lemma otherPlayer_BLACK : otherPlayer BLACK = RED.
Proof. reflexivity. Qed.

(** ** The two validity checks *)

Lemma wrongDirection_false piece r1 r2 :
  r1 ≠ r2 → wrongDirection piece r1 r2 = false ↔ directionOk piece r1 r2.
Proof.
  intros Hne. unfold wrongDirection, directionOk.
  destruct (isKing piece); simpl; [intuition congruence|].
  destruct (owner piece); simpl.
  - intuition congruence.
  - destruct (r2 - r1 >? 0) eqn:E; split; try done; intros H.
    + destruct (H eq_refl) as [H1 _]. specialize (H1 eq_refl). lia.
    + intros _. split; [intros _; lia | done].
  - destruct (r2 - r1 <? 0) eqn:E; split; try done; intros H.
    + destruct (H eq_refl) as [_ H1]. specialize (H1 eq_refl). lia.
    + intros _. split; [done | intros _; lia].
Qed.

(** [isJumpValid] on its own: it looks neither at the player to move nor at
    whether the target lies on the board (an off-board target reads as
    empty); its callers test both first. *)
Lemma isJumpValid_true b r1 c1 r2 c2 :
  isJumpValid b r1 c1 r2 c2 = true ↔
  ∃ piece jumped,
    getPiece b r1 c1 = Some piece ∧
    getPiece b r2 c2 = None ∧
    Z.abs (r2 - r1) = 2 ∧ Z.abs (c2 - c1) = 2 ∧
    getPiece b (Z.quot (r1 + r2) 2) (Z.quot (c1 + c2) 2) = Some jumped ∧
    owner jumped ≠ owner piece ∧ owner jumped ≠ NONE ∧
    directionOk piece r1 r2.
Proof.
  unfold isJumpValid.
  destruct (getPiece b r1 c1) as [piece|] eqn:Hp; [|naive_solver].
  destruct (getPiece b r2 c2) as [q|] eqn:Hq; [naive_solver|].
  destruct (Z.abs (r2 - r1) =? 2) eqn:Hr; simpl;
    [apply Z.eqb_eq in Hr | apply Z.eqb_neq in Hr; naive_solver].
  destruct (Z.abs (c2 - c1) =? 2) eqn:Hc; simpl;
    [apply Z.eqb_eq in Hc | apply Z.eqb_neq in Hc; naive_solver].
  destruct (getPiece b (Z.quot (r1 + r2) 2) (Z.quot (c1 + c2) 2))
    as [jumped|] eqn:Hj; [|naive_solver].
  destruct (Player_eqb (owner jumped) (owner piece)) eqn:Ho; simpl;
    [apply Player_eqb_eq in Ho; naive_solver | apply Player_eqb_neq in Ho].
  destruct (Player_eqb (owner jumped) NONE) eqn:Hn; simpl;
    [apply Player_eqb_eq in Hn; naive_solver | apply Player_eqb_neq in Hn].
  assert (Hne : r1 ≠ r2) by lia.
  pose proof (wrongDirection_false piece r1 r2 Hne) as Hd.
  destruct (wrongDirection piece r1 r2); split.
  - done.
  - intros (p' & j' & Hp' & _ & _ & _ & _ & _ & _ & Hdir).
    injection Hp' as <-. apply Hd in Hdir. done.
  - intros _. exists piece, jumped. intuition.
  - done.
Qed.

Lemma isSimpleMoveValid_true b r1 c1 r2 c2 :
  isSimpleMoveValid b r1 c1 r2 c2 = true ↔
  ∃ piece,
    getPiece b r1 c1 = Some piece ∧
    getPiece b r2 c2 = None ∧
    Z.abs (r2 - r1) = 1 ∧ Z.abs (c2 - c1) = 1 ∧
    directionOk piece r1 r2.
Proof.
  unfold isSimpleMoveValid.
  destruct (getPiece b r1 c1) as [piece|] eqn:Hp; [|naive_solver].
  destruct (getPiece b r2 c2) as [q|] eqn:Hq; [naive_solver|].
  destruct (Z.abs (r2 - r1) =? 1) eqn:Hr; simpl;
    [apply Z.eqb_eq in Hr | apply Z.eqb_neq in Hr; naive_solver].
  destruct (Z.abs (c2 - c1) =? 1) eqn:Hc; simpl;
    [apply Z.eqb_eq in Hc | apply Z.eqb_neq in Hc; naive_solver].
  assert (Hne : r1 ≠ r2) by lia.
  pose proof (wrongDirection_false piece r1 r2 Hne) as Hd.
  destruct (wrongDirection piece r1 r2); split.
  - done.
  - intros (p' & Hp' & _ & _ & _ & Hdir).
    injection Hp' as <-. apply Hd in Hdir. done.
  - intros _. exists piece. intuition.
  - done.
Qed.

(** ** The enumerations *)

Lemma elem_of_getPossibleJumpsForPiece b r c m :
  m ∈ getPossibleJumpsForPiece b r c ↔
  startR m = r ∧ startC m = c ∧
  isInBounds (endR m) (endC m) = true ∧
  isJumpValid b r c (endR m) (endC m) = true.
Proof.
  unfold getPossibleJumpsForPiece. split.
  - destruct (getPiece b r c); [|by intros ?%elem_of_nil].
    intros (d & Hm & _)%list_elem_of_bind. simpl in Hm.
    destruct (isInBounds _ _) eqn:Hb; simpl in Hm;
      [|by apply elem_of_nil in Hm].
    destruct (isJumpValid _ _ _ _ _) eqn:Hj; [|by apply elem_of_nil in Hm].
    apply list_elem_of_singleton in Hm as ->. simpl. done.
  - intros (<- & <- & Hb & Hj).
    pose proof Hj as (piece & _ & -> & _ & Hr & Hc & _)%isJumpValid_true.
    apply list_elem_of_bind.
    exists (endR m - startR m, endC m - startC m). simpl.
    replace (startR m + (endR m - startR m)) with (endR m) by lia.
    replace (startC m + (endC m - startC m)) with (endC m) by lia.
    rewrite Hb, Hj. simpl. split.
    + destruct m; simpl. apply list_elem_of_singleton. reflexivity.
    + unfold jumpDirections.
      assert (endR m - startR m = 2 ∨ endR m - startR m = -2) as [->| ->] by lia;
      assert (endC m - startC m = 2 ∨ endC m - startC m = -2) as [->| ->] by lia;
      set_solver.
Qed.

Lemma ownedByCurrent_true g r c :
  ownedByCurrent g r c = true ↔
  ∃ piece, getPiece (board g) r c = Some piece ∧ owner piece = currentPlayer g.
Proof.
  unfold ownedByCurrent. destruct (getPiece (board g) r c) as [p|].
  - rewrite Player_eqb_eq. naive_solver.
  - naive_solver.
Qed.

Lemma ownedByCurrent_in_bounds g r c :
  ownedByCurrent g r c = true → 0 ≤ r < 8 ∧ 0 ≤ c < 8.
Proof.
  intros (p & [Hb _]%getPiece_Some & _)%ownedByCurrent_true.
  by apply isInBounds_spec.
Qed.

(** A doubly nested loop over the board that appends [f r c] for every
    square. *)
Lemma elem_of_board_loop {A} (f : Z → Z → list A) (x : A) :
  x ∈ (r ← indices 0 BOARD_SIZE; c ← indices 0 BOARD_SIZE; f r c) ↔
  ∃ r c, 0 ≤ r < 8 ∧ 0 ≤ c < 8 ∧ x ∈ f r c.
Proof.
  rewrite list_elem_of_bind. split.
  - intros (r & (c & Hx & Hc%elem_of_indices)%list_elem_of_bind
              & Hr%elem_of_indices).
    exists r, c. unfold BOARD_SIZE in *. done.
  - intros (r & c & Hr & Hc & Hx). exists r.
    split; [|by apply elem_of_indices].
    apply list_elem_of_bind. exists c. split; [done|by apply elem_of_indices].
Qed.

Lemma elem_of_getAllPossibleJumps g m :
  m ∈ getAllPossibleJumps g ↔
  ownedByCurrent g (startR m) (startC m) = true ∧
  isInBounds (endR m) (endC m) = true ∧
  isJumpValid (board g) (startR m) (startC m) (endR m) (endC m) = true.
Proof.
  unfold getAllPossibleJumps. rewrite elem_of_board_loop. split.
  - intros (r & c & _ & _ & Hm).
    destruct (ownedByCurrent g r c) eqn:Ho; [|by apply elem_of_nil in Hm].
    apply elem_of_getPossibleJumpsForPiece in Hm as (-> & -> & Hb & Hj).
    done.
  - intros (Ho & Hb & Hj). exists (startR m), (startC m).
    destruct (ownedByCurrent_in_bounds _ _ _ Ho) as [Hr Hc].
    split; [done|]. split; [done|]. rewrite Ho.
    by apply elem_of_getPossibleJumpsForPiece.
Qed.

Lemma elem_of_getAllPossibleSimpleMoves g m :
  m ∈ getAllPossibleSimpleMoves g ↔
  ownedByCurrent g (startR m) (startC m) = true ∧
  isInBounds (endR m) (endC m) = true ∧
  isSimpleMoveValid (board g) (startR m) (startC m) (endR m) (endC m) = true.
Proof.
  unfold getAllPossibleSimpleMoves. rewrite elem_of_board_loop. split.
  - intros (r & c & _ & _ & Hm).
    destruct (ownedByCurrent g r c) eqn:Ho; [|by apply elem_of_nil in Hm].
    apply list_elem_of_bind in Hm as (d & Hm & _). simpl in Hm.
    destruct (isInBounds _ _) eqn:Hb; simpl in Hm;
      [|by apply elem_of_nil in Hm].
    destruct (isSimpleMoveValid _ _ _ _ _) eqn:Hs;
      [|by apply elem_of_nil in Hm].
    apply list_elem_of_singleton in Hm as ->. simpl. done.
  - intros (Ho & Hb & Hs). exists (startR m), (startC m).
    destruct (ownedByCurrent_in_bounds _ _ _ Ho) as [Hr Hc].
    split; [done|]. split; [done|]. rewrite Ho.
    pose proof Hs as (piece & _ & _ & Hdr & Hdc & _)%isSimpleMoveValid_true.
    apply list_elem_of_bind.
    exists (endR m - startR m, endC m - startC m). simpl.
    replace (startR m + (endR m - startR m)) with (endR m) by lia.
    replace (startC m + (endC m - startC m)) with (endC m) by lia.
    rewrite Hb, Hs. simpl. split.
    + destruct m; simpl. apply list_elem_of_singleton. reflexivity.
    + unfold simpleDirections.
      assert (endR m - startR m = 1 ∨ endR m - startR m = -1) as [->| ->] by lia;
      assert (endC m - startC m = 1 ∨ endC m - startC m = -1) as [->| ->] by lia;
      set_solver.
Qed.

(** The midpoint of a two-square displacement is exact, so the truncating
    division of the source is the plain half. *)
Lemma midpoint_quot a b : Z.abs (b - a) = 2 → Z.quot (a + b) 2 = (a + b) / 2.
Proof.
  intros H.
  assert (a + b = (a + 1) * 2 ∨ a + b = (a - 1) * 2) as [-> | ->] by lia;
    by rewrite Z.quot_mul, Z.div_mul.
Qed.

(** ** Legality as the rules state it *)

Lemma otherPlayer_opposes (p q : Player) :
  p ≠ NONE → q ≠ p ∧ q ≠ NONE ↔ q = otherPlayer p.
Proof. destruct p, q; unfold otherPlayer; simpl; naive_solver. Qed.

(** The three tests the callers of [isJumpValid] chain together. *)
Lemma guarded_isJumpValid g m :
  currentPlayer g ≠ NONE →
  ownedByCurrent g (startR m) (startC m) = true ∧
  isInBounds (endR m) (endC m) = true ∧
  isJumpValid (board g) (startR m) (startC m) (endR m) (endC m) = true
  ↔ legalJump g m.
Proof.
  intros Hcur. rewrite ownedByCurrent_true, isJumpValid_true.
  unfold legalJump. split.
  - intros ((p & Hp & Ho) & Hb & (p' & j & Hp' & Hq & Hr & Hc & Hj & Hoj & Hn & Hd)).
    rewrite Hp in Hp'. injection Hp' as <-.
    exists p, j. rewrite <- !midpoint_quot by done.
    split_and!; try done.
    apply otherPlayer_opposes; [done|]. by rewrite <- Ho.
  - intros (p & j & Hp & Ho & Hb & Hq & Hr & Hc & Hj & Hoj & Hd).
    rewrite <- !midpoint_quot in Hj by done.
    apply otherPlayer_opposes in Hoj as [Hne Hn]; [|done].
    split; [by exists p|]. split; [done|].
    exists p, j. rewrite Ho. done.
Qed.

Lemma guarded_isSimpleMoveValid g m :
  ownedByCurrent g (startR m) (startC m) = true ∧
  isInBounds (endR m) (endC m) = true ∧
  isSimpleMoveValid (board g) (startR m) (startC m) (endR m) (endC m) = true
  ↔ legalSimpleMove g m.
Proof.
  rewrite ownedByCurrent_true, isSimpleMoveValid_true.
  unfold legalSimpleMove. split.
  - intros ((p & Hp & Ho) & Hb & (p' & Hp' & Hq & Hr & Hc & Hd)).
    rewrite Hp in Hp'. injection Hp' as <-. by exists p.
  - intros (p & Hp & Ho & Hb & Hq & Hr & Hc & Hd).
    split; [by exists p|]. split; [done|]. by exists p.
Qed.

(** ** Counting pieces *)

Lemma countPieces_fold b (l : list (Z * Z)) (n : Z * Z) :
  0 ≤ n.1 → 0 ≤ n.2 →
  let res :=
    foldl (λ n rc,
      match getPiece b rc.1 rc.2 with
      | Some p =>
          let red := if Player_eqb (owner p) RED then n.1 + 1 else n.1 in
          let black := if Player_eqb (owner p) BLACK then n.2 + 1 else n.2 in
          (red, black)
      | None => n
      end) n l in
  0 ≤ res.1 ∧ 0 ≤ res.2 ∧
  (res.1 = 0 ↔
   n.1 = 0 ∧ ∀ rc p, rc ∈ l → getPiece b rc.1 rc.2 = Some p → owner p ≠ RED) ∧
  (res.2 = 0 ↔
   n.2 = 0 ∧ ∀ rc p, rc ∈ l → getPiece b rc.1 rc.2 = Some p → owner p ≠ BLACK).
Proof.
  revert n. induction l as [|rc l IH]; intros n H1 H2; simpl.
  - split_and!; try done; (split; [intros ->; split; [done|]|by intros [-> _]]);
      intros ? ? ?%elem_of_nil; done.
  - destruct (getPiece b rc.1 rc.2) as [p|] eqn:Hp.
    + set (n' := (_, _)).
      assert (0 ≤ n'.1 ∧ 0 ≤ n'.2) as [H1' H2'].
      { subst n'. simpl.
        destruct (Player_eqb _ RED), (Player_eqb _ BLACK); lia. }
      destruct (IH n' H1' H2') as (R1 & R2 & R3 & R4).
      split_and!; try done.
      * rewrite R3. subst n'. simpl. split.
        -- intros [Hn Hall].
           destruct (Player_eqb (owner p) RED) eqn:E; [lia|].
           split; [done|]. intros rc' p' [->|Hin]%elem_of_cons Hp'.
           ++ rewrite Hp in Hp'. injection Hp' as <-.
              by apply Player_eqb_neq.
           ++ by eapply Hall.
        -- intros [Hn Hall].
           assert (owner p ≠ RED) as ->%Player_eqb_neq
             by (eapply (Hall rc); [left|done]).
           split; [done|]. intros rc' p' Hin. apply Hall. by right.
      * rewrite R4. subst n'. simpl. split.
        -- intros [Hn Hall].
           destruct (Player_eqb (owner p) BLACK) eqn:E; [lia|].
           split; [done|]. intros rc' p' [->|Hin]%elem_of_cons Hp'.
           ++ rewrite Hp in Hp'. injection Hp' as <-.
              by apply Player_eqb_neq.
           ++ by eapply Hall.
        -- intros [Hn Hall].
           assert (owner p ≠ BLACK) as ->%Player_eqb_neq
             by (eapply (Hall rc); [left|done]).
           split; [done|]. intros rc' p' Hin. apply Hall. by right.
    + destruct (IH n H1 H2) as (R1 & R2 & R3 & R4).
      split_and!; try done.
      * rewrite R3. split; intros [Hn Hall]; (split; [done|]).
        -- intros rc' p' [->|Hin]%elem_of_cons Hp'; [congruence|by eapply Hall].
        -- intros rc' p' Hin. apply Hall. by right.
      * rewrite R4. split; intros [Hn Hall]; (split; [done|]).
        -- intros rc' p' [->|Hin]%elem_of_cons Hp'; [congruence|by eapply Hall].
        -- intros rc' p' Hin. apply Hall. by right.
Qed.

Lemma countPieces_zero b :
  ((countPieces b).1 = 0 ↔ ¬ hasPiece RED b) ∧
  ((countPieces b).2 = 0 ↔ ¬ hasPiece BLACK b).
Proof.
  unfold countPieces.
  destruct (countPieces_fold b allSquares (0, 0)) as (_ & _ & R & B);
    [reflexivity|reflexivity|].
  rewrite R, B. clear R B. unfold hasPiece.
  split; (split; [intros [_ Hall] (r & c & p & Hp & Ho)|intros Hno]).
  - eapply (Hall (r, c)); [|exact Hp|exact Ho].
    apply elem_of_allSquares. by apply getPiece_Some in Hp as [? _].
  - split; [reflexivity|]. intros [r c] p _ Hp Ho. apply Hno.
    by exists r, c, p.
  - eapply (Hall (r, c)); [|exact Hp|exact Ho].
    apply elem_of_allSquares. by apply getPiece_Some in Hp as [? _].
  - split; [reflexivity|]. intros [r c] p _ Hp Ho. apply Hno.
    by exists r, c, p.
Qed.

Lemma checkForWin_no_red g :
  ¬ hasPiece RED (board g) → checkForWin g = BLACK.
Proof.
  intros H%(proj1 (countPieces_zero (board g))).
  unfold checkForWin. by rewrite H.
Qed.

Lemma checkForWin_no_black g :
  hasPiece RED (board g) → ¬ hasPiece BLACK (board g) → checkForWin g = RED.
Proof.
  intros Hr Hb%(proj2 (countPieces_zero (board g))).
  unfold checkForWin. rewrite Hb.
  destruct (Z.eqb_spec (countPieces (board g)).1 0) as [E|E]; [|done].
  by apply (countPieces_zero (board g)) in E.
Qed.

Lemma checkForWin_both g :
  hasPiece RED (board g) → hasPiece BLACK (board g) →
  checkForWin g =
    if isEmpty (getAllPossibleJumps g) && isEmpty (getAllPossibleSimpleMoves g)
    then otherPlayer (currentPlayer g) else NONE.
Proof.
  intros Hr Hb. unfold checkForWin.
  destruct (Z.eqb_spec (countPieces (board g)).1 0) as [E|_].
  { by apply (countPieces_zero (board g)) in E. }
  destruct (Z.eqb_spec (countPieces (board g)).2 0) as [E|_].
  { by apply (countPieces_zero (board g)) in E. }
  done.
Qed.

Lemma nil_no_elem {A} (l : list A) : l = [] ↔ ∀ x, x ∉ l.
Proof.
  destruct l as [|x l]; split; try done.
  - intros _ y ?%elem_of_nil. done.
  - intros H. destruct (H x). left.
Qed.

Lemma no_jumps_iff g :
  currentPlayer g ≠ NONE →
  getAllPossibleJumps g = [] ↔ ∀ m, ¬ legalJump g m.
Proof.
  intros Hcur. rewrite nil_no_elem.
  split; intros H m Hm; apply (H m).
  - by apply elem_of_getAllPossibleJumps, guarded_isJumpValid.
  - by apply guarded_isJumpValid, elem_of_getAllPossibleJumps.
Qed.

Lemma no_simple_moves_iff g :
  getAllPossibleSimpleMoves g = [] ↔ ∀ m, ¬ legalSimpleMove g m.
Proof.
  rewrite nil_no_elem.
  split; intros H m Hm; apply (H m).
  - by apply elem_of_getAllPossibleSimpleMoves, guarded_isSimpleMoveValid.
  - by apply guarded_isSimpleMoveValid, elem_of_getAllPossibleSimpleMoves.
Qed.

(** ** Board primitives *)

Lemma removePiece_delete (b : Board) r c : removePiece b r c = delete (r, c) b.
Proof.
  unfold removePiece. destruct (b !! (r, c)) eqn:E; [done|].
  symmetry. by apply delete_id.
Qed.

Lemma lookup_movePiece (b : Board) r1 c1 r2 c2 piece k :
  b !! (r1, c1) = Some piece →
  movePiece b r1 c1 r2 c2 !! k =
    if decide (k = (r1, c1)) then None
    else if decide (k = (r2, c2)) then Some (setPosition piece r2 c2)
    else b !! k.
Proof.
  intros Hp. unfold movePiece. rewrite Hp.
  destruct (decide (k = (r1, c1))) as [->|Hne1].
  - apply lookup_delete_eq.
  - rewrite lookup_delete_ne by done.
    destruct (decide (k = (r2, c2))) as [->|Hne2].
    + apply lookup_insert_eq.
    + by rewrite lookup_insert_ne.
Qed.

Lemma lookup_clear_loop (l : list (Z * Z)) (b : Board) k :
  foldl (λ b rc, delete rc b) b l !! k =
    if decide (k ∈ l) then None else b !! k.
Proof.
  revert b. induction l as [|x l IH]; intros b; simpl.
  - destruct (decide (k ∈ [])) as [H%elem_of_nil|]; done.
  - rewrite IH. destruct (decide (k ∈ l)) as [Hin|Hnin].
    + rewrite decide_True; [done|by right].
    + destruct (decide (k = x)) as [->|Hne].
      * rewrite decide_True by left. apply lookup_delete_eq.
      * rewrite decide_False by (intros [?|?]%elem_of_cons; done).
        by apply lookup_delete_ne.
Qed.

Lemma getPiece_clearGrid b r c : getPiece (clearGrid b) r c = None.
Proof.
  rewrite getPiece_unfold. destruct (isInBounds r c) eqn:Hb; [|done].
  unfold clearGrid. rewrite lookup_clear_loop.
  by rewrite decide_True by by apply elem_of_allSquares.
Qed.

(** ** The board invariant *)

(** The same, square by square. *)
Lemma boardInv_alt b :
  boardInv b ↔
  ∀ r c p, getPiece b r c = Some p → row p = r ∧ col p = c ∧ Z.Odd (r + c).
Proof.
  unfold boardInv. split.
  - intros [Hpos Hlight] r c p Hp.
    destruct (Hpos r c p Hp) as [Hr Hc]. split_and!; try done.
    destruct (Z.Even_or_Odd (r + c)) as [He|Ho]; [|done].
    rewrite (Hlight _ _ He) in Hp. done.
  - intros H. split.
    + intros r c p Hp. by destruct (H r c p Hp) as (? & ? & _).
    + intros r c He. destruct (getPiece b r c) as [p|] eqn:Hp; [|done].
      destruct (H r c p Hp) as (_ & _ & Ho).
      destruct (Z.Even_Odd_False _ He Ho).
Qed.

Lemma rem_2_Odd n : Z.rem n 2 ≠ 0 → Z.Odd n.
Proof.
  intros H. destruct (Z.Even_or_Odd n) as [[k ->]|Ho]; [|done].
  destruct H. rewrite Z.mul_comm. by apply Z.rem_mul.
Qed.

Create HintDb board_inv.

(** What the primitives do to a board that satisfies the invariant. *)
Section Preservation.
Variable b : Board.
Hypothesis Hinv : boardInv b.

Lemma boardInv_dark r c p : getPiece b r c = Some p → Z.Odd (r + c).
Proof.
  intros Hp.
  by destruct (proj1 (boardInv_alt b) Hinv r c p Hp) as (_ & _ & ?).
Qed.

Lemma boardInv_insert r c p :
  row p = r → col p = c → Z.Odd (r + c) → boardInv (<[(r, c) := p]> b).
Proof.
  intros Hr Hc Ho. apply boardInv_alt. intros r' c' p'.
  rewrite getPiece_Some. intros [Hb Hl].
  destruct (decide ((r, c) = (r', c'))) as [[= <- <-]|Hne].
  - rewrite lookup_insert_eq in Hl. injection Hl as <-. done.
  - rewrite lookup_insert_ne in Hl by done.
    apply (proj1 (boardInv_alt b) Hinv). by apply getPiece_Some.
Qed.

Lemma boardInv_delete k : boardInv (delete k b).
Proof.
  apply boardInv_alt. intros r c p.
  rewrite getPiece_Some. intros [Hb Hl].
  destruct (decide (k = (r, c))) as [->|Hne].
  - by rewrite lookup_delete_eq in Hl.
  - rewrite lookup_delete_ne in Hl by done.
    apply (proj1 (boardInv_alt b) Hinv). by apply getPiece_Some.
Qed.

Lemma boardInv_removePiece r c : boardInv (removePiece b r c).
Proof. rewrite removePiece_delete. apply boardInv_delete. Qed.

Lemma boardInv_kingIfBackRank r c : boardInv (kingIfBackRank b r c).
Proof.
  unfold kingIfBackRank.
  destruct (getPiece b r c) as [p|] eqn:Hp; [|done].
  destruct (proj1 (boardInv_alt b) Hinv r c p Hp) as (Hr & Hc & Ho).
  destruct (_ && _); [by apply boardInv_insert|].
  destruct (_ && _); [by apply boardInv_insert|done].
Qed.
End Preservation.

#[local] Hint Resolve boardInv_insert boardInv_delete boardInv_removePiece
  boardInv_kingIfBackRank : board_inv.

Lemma boardInv_clearGrid b : boardInv (clearGrid b).
Proof. apply boardInv_alt. intros r c p. by rewrite getPiece_clearGrid. Qed.

Lemma boardInv_place_loop who (rs cs : list Z) b :
  boardInv b →
  boardInv
    (foldl (λ b r,
       foldl (λ b c,
         if negb (Z.rem (r + c) 2 =? 0) then <[(r, c) := newPiece who r c]> b
         else b) b cs) b rs).
Proof.
  revert b. induction rs as [|r rs IH]; intros b Hb; [done|].
  simpl. apply IH. clear IH.
  revert b Hb. induction cs as [|c cs IH]; intros b Hb; [done|].
  simpl. apply IH.
  destruct (Z.eqb_spec (Z.rem (r + c) 2) 0) as [E|E]; simpl; [done|].
  apply boardInv_insert; try done. by apply rem_2_Odd.
Qed.

Lemma boardInv_placePieces who lo hi b :
  boardInv b → boardInv (placePieces who lo hi b).
Proof. apply boardInv_place_loop. Qed.

Lemma boardInv_initializeBoard b : boardInv (initializeBoard b).
Proof.
  unfold initializeBoard.
  do 2 apply boardInv_placePieces. apply boardInv_clearGrid.
Qed.

(** A relocation keeps the invariant when it keeps the colour of the
    square. *)
Lemma boardInv_movePiece b r1 c1 r2 c2 :
  boardInv b → isInBounds r1 c1 = true →
  (Z.Odd (r1 + c1) → Z.Odd (r2 + c2)) →
  boardInv (movePiece b r1 c1 r2 c2).
Proof.
  intros Hb Hin Hpar. unfold movePiece.
  destruct (b !! (r1, c1)) as [p|] eqn:Hp; [|done].
  apply boardInv_delete, boardInv_insert; try done.
  apply Hpar, (boardInv_dark b Hb r1 c1 p). by apply getPiece_Some.
Qed.

#[local] Hint Resolve boardInv_clearGrid boardInv_placePieces
  boardInv_initializeBoard : board_inv.

(** ** Executing a move *)

Lemma executeMove_unfold g r1 c1 r2 c2 :
  executeMove g r1 c1 r2 c2 =
    let b2 := afterRelocation (board g) r1 c1 r2 c2 in
    if mustContinue (board g) r1 c1 r2 c2
    then (true, {| board := b2; currentPlayer := currentPlayer g |})
    else (false, {| board := kingIfBackRank b2 r2 c2;
                    currentPlayer := otherPlayer (currentPlayer g) |}).
Proof.
  unfold executeMove, mustContinue, afterRelocation, finishTurn, switchPlayer.
  destruct (Z.abs (r2 - r1) =? 2); simpl; [|done].
  by destruct (isEmpty _).
Qed.

Lemma parity_diagonal r1 c1 r2 c2 d :
  Z.abs (r2 - r1) = d → Z.abs (c2 - c1) = d →
  Z.Odd (r1 + c1) → Z.Odd (r2 + c2).
Proof.
  intros Hr Hc [k Hk].
  assert (r2 + c2 = r1 + c1 + 2 * d ∨ r2 + c2 = r1 + c1
          ∨ r2 + c2 = r1 + c1 - 2 * d) as [H|[H|H]] by lia.
  - exists (k + d). lia.
  - exists k. lia.
  - exists (k - d). lia.
Qed.

Lemma boardInv_afterRelocation b r1 c1 r2 c2 d :
  boardInv b → isInBounds r1 c1 = true →
  Z.abs (r2 - r1) = d → Z.abs (c2 - c1) = d →
  boardInv (afterRelocation b r1 c1 r2 c2).
Proof.
  intros Hb Hin Hr Hc. unfold afterRelocation.
  assert (boardInv (movePiece b r1 c1 r2 c2)) as Hm.
  { apply boardInv_movePiece; try done. by apply parity_diagonal with d. }
  destruct (_ =? 2); auto with board_inv.
Qed.

Lemma boardInv_executeMove g r1 c1 r2 c2 d :
  boardInv (board g) → isInBounds r1 c1 = true →
  Z.abs (r2 - r1) = d → Z.abs (c2 - c1) = d →
  boardInv (board (executeMove g r1 c1 r2 c2).2).
Proof.
  intros Hb Hin Hr Hc. rewrite executeMove_unfold.
  pose proof (boardInv_afterRelocation _ _ _ _ _ _ Hb Hin Hr Hc) as H2.
  simpl. destruct (mustContinue _ _ _ _ _); simpl; auto with board_inv.
Qed.

(** The landing square after a valid jump holds the piece that jumped, with
    its position updated and nothing else changed. *)
Lemma landing_after_jump b r1 c1 r2 c2 piece :
  getPiece b r1 c1 = Some piece → isInBounds r2 c2 = true →
  Z.abs (r2 - r1) = 2 → Z.abs (c2 - c1) = 2 →
  getPiece (afterRelocation b r1 c1 r2 c2) r2 c2
    = Some (setPosition piece r2 c2).
Proof.
  intros [Hin Hp]%getPiece_Some Hb Hr Hc.
  rewrite getPiece_in_bounds by done.
  unfold afterRelocation. rewrite (proj2 (Z.eqb_eq _ _) Hr).
  rewrite removePiece_delete, lookup_delete_ne.
  - rewrite (lookup_movePiece _ _ _ _ _ piece) by done.
    rewrite decide_False by (intros [= ? ?]; lia).
    by rewrite decide_True.
  - rewrite midpoint_quot by done. intros [= H _].
    assert (r1 + r2 = (r1 + 1) * 2 ∨ r1 + r2 = (r1 - 1) * 2) as [E|E] by lia;
      rewrite E, Z.div_mul in H by done; lia.
Qed.

(** ** One pass of the inner loop *)

(** What a pass can have done, read off the branches of [submitMove]. *)
Lemma submitMove_cases g jf r1 c1 r2 c2 :
  (∃ why, submitMove g jf r1 c1 r2 c2 = (Rejected why, g)) ∨
  (ownedByCurrent g r1 c1 = true ∧ Z.abs (r2 - r1) = 2 ∧
   isJumpValid (board g) r1 c1 r2 c2 = true ∧
   submitMove g jf r1 c1 r2 c2 = afterJump (executeMove g r1 c1 r2 c2)) ∨
  (ownedByCurrent g r1 c1 = true ∧ jf = false ∧ Z.abs (r2 - r1) ≠ 2 ∧
   isSimpleMoveValid (board g) r1 c1 r2 c2 = true ∧
   submitMove g jf r1 c1 r2 c2 = (TurnComplete, (executeMove g r1 c1 r2 c2).2)).
Proof.
  unfold submitMove.
  destruct (ownedByCurrent g r1 c1) eqn:Ho; simpl; [|left; by eexists].
  destruct (Z.eqb_spec (Z.abs (r2 - r1)) 2) as [Hj|Hj].
  - destruct (isJumpValid (board g) r1 c1 r2 c2) eqn:Hv.
    + right; left. by destruct jf.
    + left. destruct jf; by eexists.
  - destruct jf; [left; by eexists|].
    destruct (isSimpleMoveValid (board g) r1 c1 r2 c2) eqn:Hv.
    + right; right. done.
    + left. by eexists.
Qed.

Lemma afterJump_executeMove g r1 c1 r2 c2 :
  afterJump (executeMove g r1 c1 r2 c2) =
    if mustContinue (board g) r1 c1 r2 c2
    then (MustKeepJumping,
          {| board := afterRelocation (board g) r1 c1 r2 c2;
             currentPlayer := currentPlayer g |})
    else (TurnComplete,
          {| board := kingIfBackRank (afterRelocation (board g) r1 c1 r2 c2)
                        r2 c2;
             currentPlayer := otherPlayer (currentPlayer g) |}).
Proof.
  rewrite executeMove_unfold. simpl. by destruct (mustContinue _ _ _ _ _).
Qed.

(** A simple move never asks for a continuation. *)
Lemma mustContinue_simple b r1 c1 r2 c2 :
  Z.abs (r2 - r1) ≠ 2 → mustContinue b r1 c1 r2 c2 = false.
Proof.
  intros H. unfold mustContinue. by rewrite (proj2 (Z.eqb_neq _ _) H).
Qed.

(** ** The states of the turn loop *)

Lemma parseInput_Some input r1 c1 r2 c2 :
  parseInput input = Some (r1, c1, r2, c2) →
  isInBounds r1 c1 = true ∧ isInBounds r2 c2 = true ∧ (r1, c1) ≠ (r2, c2).
Proof.
  unfold parseInput.
  destruct (_ <? _)%nat; [done|].
  destruct (negb (String.eqb _ _)); [done|].
  destruct (isInBounds _ _) eqn:H1; simpl; [|done].
  destruct (isInBounds _ _) eqn:H2 in |- *; simpl; [|done].
  destruct (_ && _) eqn:H3; [done|].
  intros [= <- <- <- <-]. split_and!; try done.
  intros [= E1 E2]. rewrite E1, E2, !Z.eqb_refl in H3. done.
Qed.

Lemma step_cases st input out st' :
  step st input = Some (out, st') →
  ∃ jf, status st = AwaitingMove jf ∧
    ((out = None ∧ st' = {| game := game st; status := Exited |}) ∨
     (out = Some (Rejected InvalidInput) ∧ st' = st) ∨
     (∃ r1 c1 r2 c2 o g',
        parseInput input = Some (r1, c1, r2, c2) ∧
        submitMove (game st) jf r1 c1 r2 c2 = (o, g') ∧
        out = Some o ∧
        st' = match o with
              | TurnComplete => turnStart g'
              | _ => {| game := g'; status := AwaitingMove jf |}
              end)).
Proof.
  unfold step. destruct (status st) as [jf| |] eqn:Hs; [|done|done].
  intros H. exists jf. split; [done|].
  destruct (_ || _).
  { left. by injection H as <- <-. }
  destruct (parseInput input) as [[[[r1 c1] r2] c2]|] eqn:Hp.
  - right; right.
    destruct (submitMove (game st) jf r1 c1 r2 c2) as [o g'] eqn:Hm.
    exists r1, c1, r2, c2, o, g'. simpl in H.
    split_and!; try done; destruct o; by injection H as <- <-.
  - right; left. by injection H as <- <-.
Qed.

Lemma turnStart_game g : game (turnStart g) = g.
Proof. unfold turnStart. by destruct (checkForWin g). Qed.

Lemma flagAgrees_turnStart g : flagAgrees (turnStart g).
Proof.
  unfold flagAgrees, turnStart. intros jf.
  destruct (checkForWin g); simpl; congruence.
Qed.

(** A jump the loop accepts is one of the jumps of the player to move. *)
Lemma accepted_jump_listed g r1 c1 r2 c2 :
  ownedByCurrent g r1 c1 = true → isInBounds r2 c2 = true →
  isJumpValid (board g) r1 c1 r2 c2 = true →
  mkMove r1 c1 r2 c2 ∈ getAllPossibleJumps g.
Proof. intros. by apply elem_of_getAllPossibleJumps. Qed.

(** When a continuation is asked for, the player to move has a jump in the
    new game: one by the piece that has just landed. *)
Lemma continuation_has_jump g r1 c1 r2 c2 :
  ownedByCurrent g r1 c1 = true → isInBounds r2 c2 = true →
  isJumpValid (board g) r1 c1 r2 c2 = true →
  mustContinue (board g) r1 c1 r2 c2 = true →
  getAllPossibleJumps
    {| board := afterRelocation (board g) r1 c1 r2 c2;
       currentPlayer := currentPlayer g |} ≠ [].
Proof.
  intros (piece & Hp & Ho)%ownedByCurrent_true Hb Hv Hc.
  apply isJumpValid_true in Hv as (? & _ & _ & _ & Hdr & Hdc & _).
  unfold mustContinue in Hc.
  apply andb_true_iff in Hc as [_ Hne%negb_true_iff%isEmpty_false].
  destruct (getPossibleJumpsForPiece _ r2 c2) as [|m l] eqn:Hl; [done|].
  assert (m ∈ getPossibleJumpsForPiece
                (afterRelocation (board g) r1 c1 r2 c2) r2 c2) as Hm
    by (rewrite Hl; left).
  apply elem_of_getPossibleJumpsForPiece in Hm as (Hs1 & Hs2 & Hmb & Hmv).
  intros Hnil.
  assert (m ∈ getAllPossibleJumps
                {| board := afterRelocation (board g) r1 c1 r2 c2;
                   currentPlayer := currentPlayer g |}) as Hin.
  { apply elem_of_getAllPossibleJumps. rewrite Hs1, Hs2. simpl.
    split_and!; try done. apply ownedByCurrent_true. simpl.
    exists (setPosition piece r2 c2). split; [|done].
    by apply landing_after_jump. }
  rewrite Hnil in Hin. by apply elem_of_nil in Hin.
Qed.

Lemma flagAgrees_step st input out st' :
  flagAgrees st → step st input = Some (out, st') → flagAgrees st'.
Proof.
  intros Hf (jf & Hs & Hcases)%step_cases.
  destruct Hcases as [[_ ->]|[[_ ->]|Hmove]]; [done|done|].
  destruct Hmove as (r1 & c1 & r2 & c2 & o & g' & Hp & Hm & _ & ->).
  apply parseInput_Some in Hp as (Hb1 & Hb2 & _).
  destruct o as [why| |]; [| |apply flagAgrees_turnStart].
  - destruct (submitMove_cases (game st) jf r1 c1 r2 c2)
      as [[w H]|[(_ & _ & _ & H)|(_ & _ & _ & _ & H)]];
      rewrite Hm in H.
    + injection H as _ ->. intros jf' [= <-]. by apply Hf.
    + rewrite afterJump_executeMove in H.
      destruct (mustContinue _ _ _ _ _); done.
    + done.
  - destruct (submitMove_cases (game st) jf r1 c1 r2 c2)
      as [[w H]|[(Ho & Hj & Hv & H)|(_ & _ & _ & _ & H)]];
      rewrite Hm in H; [done| |done].
    rewrite afterJump_executeMove in H.
    destruct (mustContinue _ _ _ _ _) eqn:Hc; [|done].
    injection H as ->. intros jf' [= <-]. simpl.
    pose proof (continuation_has_jump _ _ _ _ _ Ho Hb2 Hv Hc) as Hne.
    apply isEmpty_false in Hne. rewrite Hne. simpl.
    rewrite (Hf jf Hs).
    pose proof (accepted_jump_listed _ _ _ _ _ Ho Hb2 Hv) as Hin.
    destruct (getAllPossibleJumps (game st)); [by apply elem_of_nil in Hin|done].
Qed.

Lemma ReachableFrom_flagAgrees g0 st : ReachableFrom g0 st → flagAgrees st.
Proof.
  induction 1 as [|st input out st' _ IH Hstep].
  - apply flagAgrees_turnStart.
  - by eapply flagAgrees_step.
Qed.

(** The player to move is never [NONE] in a run. *)
Lemma otherPlayer_not_NONE p : otherPlayer p ≠ NONE.
Proof. by destruct p. Qed.

Lemma currentPlayer_submitMove g jf r1 c1 r2 c2 :
  currentPlayer g ≠ NONE →
  currentPlayer (submitMove g jf r1 c1 r2 c2).2 ≠ NONE.
Proof.
  intros Hcur.
  destruct (submitMove_cases g jf r1 c1 r2 c2)
    as [[w H]|[(_ & _ & _ & H)|(_ & _ & _ & _ & H)]]; rewrite H; [done| |].
  - rewrite afterJump_executeMove.
    destruct (mustContinue _ _ _ _ _); simpl;
      [done|apply otherPlayer_not_NONE].
  - rewrite executeMove_unfold. simpl.
    destruct (mustContinue _ _ _ _ _); simpl;
      [done|apply otherPlayer_not_NONE].
Qed.

Lemma currentPlayer_ReachableFrom g0 st :
  currentPlayer g0 ≠ NONE → ReachableFrom g0 st →
  currentPlayer (game st) ≠ NONE.
Proof.
  intros Hcur. induction 1 as [|st input out st' _ IH Hstep].
  - by rewrite turnStart_game.
  - apply step_cases in Hstep as (jf & Hs & Hcases).
    destruct Hcases as [[_ ->]|[[_ ->]|Hmove]]; [done|done|].
    destruct Hmove as (r1 & c1 & r2 & c2 & o & g' & _ & Hm & _ & ->).
    pose proof (currentPlayer_submitMove (game st) jf r1 c1 r2 c2 IH) as H.
    rewrite Hm in H. destruct o; [done|done|]. by rewrite turnStart_game.
Qed.

(** * The claims *)

(** C9. A newly constructed game has Red to move: the constructor sets the
    player to Red, the loop is entered with Red to move, waiting for a
    line, and the first move the loop accepts starts on a square that
    holds a Red piece. *)
Theorem red_moves_first :
  currentPlayer newGame = RED ∧
  currentPlayer (game runStart) = RED ∧
  (∃ jf, status runStart = AwaitingMove jf) ∧
  (∀ jf r1 c1 r2 c2,
     (∀ why, (submitMove (game runStart) jf r1 c1 r2 c2).1 ≠ Rejected why) →
     ∃ p, getPiece (board (game runStart)) r1 c1 = Some p ∧ owner p = RED).
Proof.
  assert (currentPlayer (game runStart) = RED) as Hcur
    by (vm_compute; reflexivity).
  split_and!; [reflexivity|exact Hcur|eexists; vm_compute; reflexivity|].
  intros jf r1 c1 r2 c2 Hacc.
  assert (ownedByCurrent (game runStart) r1 c1 = true) as Ho.
  { destruct (submitMove_cases (game runStart) jf r1 c1 r2 c2)
      as [[w H]|[(Ho & _)|(Ho & _)]]; [|exact Ho|exact Ho].
    destruct (Hacc w). rewrite H. reflexivity. }
  clear Hacc. apply ownedByCurrent_true in Ho as (p & Hp & Ho).
  exists p. split; [exact Hp|]. rewrite Ho. exact Hcur.
Qed.

(** C10. On a board where neither side has a piece, [checkForWin] returns
    Black, whoever is to move: the Red counter is tested first.  It does
    not answer that there is no winner. *)
Theorem no_pieces_black_wins (g : CheckersGame) :
  ¬ hasPiece RED (board g) → ¬ hasPiece BLACK (board g) →
  checkForWin g = BLACK ∧ checkForWin g ≠ NONE.
Proof.
  intros Hr _. rewrite (checkForWin_no_red g Hr). split; [reflexivity|discriminate].
Qed.

Lemma hasPiece_empty who : ¬ hasPiece who emptyBoard.
Proof. intros (r & c & p & [_ H]%getPiece_Some & _). done. Qed.

Lemma no_pieces_black_wins_witness :
  checkForWin newGame = BLACK ∧
  checkForWin {| board := emptyBoard; currentPlayer := BLACK |} = BLACK.
Proof.
  split; apply no_pieces_black_wins; apply hasPiece_empty.
Defined.

(** C6. The terminal-state check: a side without pieces loses (Red's count
    is looked at first); otherwise the player to move loses when it has
    neither a legal jump nor a legal simple move; otherwise there is no
    winner. *)
Theorem checkForWin_spec (g : CheckersGame) :
  currentPlayer g ≠ NONE →
  (¬ hasPiece RED (board g) → checkForWin g = BLACK) ∧
  (hasPiece RED (board g) → ¬ hasPiece BLACK (board g) →
   checkForWin g = RED) ∧
  (hasPiece RED (board g) → hasPiece BLACK (board g) →
   (∀ m, ¬ legalJump g m) → (∀ m, ¬ legalSimpleMove g m) →
   checkForWin g = otherPlayer (currentPlayer g) ∧
   (currentPlayer g = RED → checkForWin g = BLACK) ∧
   (currentPlayer g = BLACK → checkForWin g = RED)) ∧
  (hasPiece RED (board g) → hasPiece BLACK (board g) →
   (∃ m, legalJump g m ∨ legalSimpleMove g m) →
   checkForWin g = NONE).
Proof.
  intros Hcur. split_and!.
  - apply checkForWin_no_red.
  - apply checkForWin_no_black.
  - intros Hr Hb Hj%no_jumps_iff Hs%no_simple_moves_iff; [|done].
    rewrite checkForWin_both, Hj, Hs by done. simpl.
    split_and!; [done|by intros ->|by intros ->].
  - intros Hr Hb (m & Hm). rewrite checkForWin_both by done.
    destruct Hm as [Hm|Hm].
    + destruct (getAllPossibleJumps g) eqn:E; [|done].
      destruct (proj1 (no_jumps_iff g Hcur) E m Hm).
    + destruct (getAllPossibleSimpleMoves g) eqn:E;
        [|by rewrite andb_false_r].
      destruct (proj1 (no_simple_moves_iff g) E m Hm).
Qed.

Lemma checkForWin_spec_witness : checkForWin initialGame = NONE.
Proof.
  assert (currentPlayer initialGame ≠ NONE) as Hcur
    by (vm_compute; discriminate).
  destruct (checkForWin_spec initialGame Hcur) as (_ & _ & _ & H).
  apply H; clear H Hcur.
  - exists 5, 0, (newPiece RED 5 0). vm_compute. split; reflexivity.
  - exists 0, 1, (newPiece BLACK 0 1). vm_compute. split; reflexivity.
  - exists (mkMove 5 0 4 1). right. exists (newPiece RED 5 0).
    split_and!; try (vm_compute; reflexivity).
    intros _. split; [intros _; simpl; lia|intros [=]].
Defined.

(** C5. A jump is judged legal exactly when the rules say so: it is among
    the jumps listed for the player to move, and equally it passes the
    tests the turn loop chains (own piece on the start square, target on
    the board, [isJumpValid]), if and only if an own piece stands on the
    start square, the target is on the board, empty and two rows and two
    columns away, the square in between holds a piece of the other side,
    and a man moves in its direction. *)
Theorem jump_legal_iff (g : CheckersGame) (m : Move) :
  currentPlayer g ≠ NONE →
  (m ∈ getAllPossibleJumps g ↔ legalJump g m) ∧
  (ownedByCurrent g (startR m) (startC m) = true ∧
   isInBounds (endR m) (endC m) = true ∧
   isJumpValid (board g) (startR m) (startC m) (endR m) (endC m) = true
   ↔ legalJump g m).
Proof.
  intros Hcur. split.
  - rewrite elem_of_getAllPossibleJumps. by apply guarded_isJumpValid.
  - by apply guarded_isJumpValid.
Qed.

Lemma jump_legal_iff_witness :
  legalJump (game captureState) (mkMove 4 3 2 1).
Proof.
  assert (currentPlayer (game captureState) ≠ NONE) as Hcur
    by (vm_compute; discriminate).
  apply (proj1 (proj1 (jump_legal_iff (game captureState) (mkMove 4 3 2 1) Hcur))).
  clear Hcur. vm_compute. left.
Defined.

Lemma ReachableFrom_foldl g0 (inputs : list string) st :
  ReachableFrom g0 st →
  ReachableFrom g0
    (foldl (λ st input,
       match step st input with
       | Some (_, st') => st'
       | None => st
       end) st inputs).
Proof.
  revert st. induction inputs as [|input inputs IH]; intros st Hst; [done|].
  simpl. apply IH.
  destruct (step st input) as [[out st']|] eqn:Hstep; [|done].
  by eapply reach_step.
Qed.

Lemma Reachable_runOn inputs : Reachable (runOn inputs).
Proof. apply ReachableFrom_foldl. apply reach_head. Qed.

(** C7. A rejected candidate leaves the game as it was: the pass of the
    loop hands back the very game it was given, the loop stays in the
    state it was in, and a move is executed only once every test has
    passed on the unchanged game. *)
Theorem rejection_changes_nothing :
  (∀ g jf r1 c1 r2 c2 why,
     (submitMove g jf r1 c1 r2 c2).1 = Rejected why →
     (submitMove g jf r1 c1 r2 c2).2 = g) ∧
  (∀ st input why st',
     step st input = Some (Some (Rejected why), st') → st' = st) ∧
  (∀ g jf r1 c1 r2 c2,
     (∀ why, (submitMove g jf r1 c1 r2 c2).1 ≠ Rejected why) →
     ownedByCurrent g r1 c1 = true ∧
     (isJumpValid (board g) r1 c1 r2 c2 = true
      ∨ isSimpleMoveValid (board g) r1 c1 r2 c2 = true) ∧
     (submitMove g jf r1 c1 r2 c2).2 = (executeMove g r1 c1 r2 c2).2).
Proof.
  split_and!.
  - intros g jf r1 c1 r2 c2 why Hrej.
    destruct (submitMove_cases g jf r1 c1 r2 c2)
      as [[w H]|[(_ & _ & _ & H)|(_ & _ & _ & _ & H)]]; rewrite H in Hrej |- *.
    + done.
    + rewrite afterJump_executeMove in Hrej.
      by destruct (mustContinue _ _ _ _ _).
    + done.
  - intros st input why st' (jf & Hs & Hcases)%step_cases.
    destruct Hcases as [[? _]|[[_ ->]|Hmove]]; [done|done|].
    destruct Hmove as (r1 & c1 & r2 & c2 & o & g' & _ & Hm & [= <-] & ->).
    destruct (submitMove_cases (game st) jf r1 c1 r2 c2)
      as [[w H]|[(_ & _ & _ & H)|(_ & _ & _ & _ & H)]]; rewrite Hm in H.
    + injection H as _ ->. destruct st. simpl in *. by rewrite Hs.
    + rewrite afterJump_executeMove in H.
      by destruct (mustContinue _ _ _ _ _).
    + done.
  - intros g jf r1 c1 r2 c2 Hacc.
    destruct (submitMove_cases g jf r1 c1 r2 c2)
      as [[w H]|[(Ho & _ & Hv & H)|(Ho & _ & _ & Hv & H)]].
    + destruct (Hacc w). by rewrite H.
    + rewrite H. split_and!; [done|by left|done].
    + rewrite H. split_and!; [done|by right|done].
Qed.

Lemma rejection_changes_nothing_witness :
  (submitMove (game captureState) true 5 0 4 1).2 = game captureState.
Proof.
  apply (proj1 rejection_changes_nothing
           (game captureState) true 5 0 4 1 JumpMandatory).
  vm_compute. reflexivity.
Defined.

Lemma getPossibleJumpsForPiece_nonempty b r c :
  getPossibleJumpsForPiece b r c ≠ [] ↔ canJumpFrom b r c.
Proof.
  unfold canJumpFrom. split.
  - intros Hne.
    destruct (getPossibleJumpsForPiece b r c) as [|m l] eqn:Hl; [done|].
    assert (m ∈ getPossibleJumpsForPiece b r c) as Hm by (rewrite Hl; left).
    apply elem_of_getPossibleJumpsForPiece in Hm as (_ & _ & Hb & Hv).
    by exists (endR m), (endC m).
  - intros (r' & c' & Hb & Hv) Hnil.
    assert (mkMove r c r' c' ∈ getPossibleJumpsForPiece b r c) as Hm
      by by apply elem_of_getPossibleJumpsForPiece.
    rewrite Hnil in Hm. by apply elem_of_nil in Hm.
Qed.

Lemma mustContinue_true b r1 c1 r2 c2 :
  mustContinue b r1 c1 r2 c2 = true ↔
  Z.abs (r2 - r1) = 2 ∧ canJumpFrom (afterRelocation b r1 c1 r2 c2) r2 c2.
Proof.
  unfold mustContinue.
  rewrite andb_true_iff, Z.eqb_eq, negb_true_iff, isEmpty_false.
  by rewrite getPossibleJumpsForPiece_nonempty.
Qed.

(** C3. An applied move either asks for a continuation or ends the turn.
    When it is a jump and the piece that jumped has a further jump from the
    square it landed on (looked for on the board as the jump leaves it:
    piece relocated, captive removed), the loop is told to keep jumping and
    the player to move stays; it then has that jump in the new game.  In
    every other case, a simple move or a jump without a further jump, the
    turn is complete and the player to move is the other one. *)
Theorem applied_move_continues_or_flips (g : CheckersGame) (jf : bool)
    (r1 c1 r2 c2 : Z) :
  (∀ why, (submitMove g jf r1 c1 r2 c2).1 ≠ Rejected why) →
  (Z.abs (r2 - r1) = 2 ∧
   canJumpFrom (afterRelocation (board g) r1 c1 r2 c2) r2 c2 →
   (submitMove g jf r1 c1 r2 c2).1 = MustKeepJumping ∧
   currentPlayer (submitMove g jf r1 c1 r2 c2).2 = currentPlayer g ∧
   canJumpFrom (board (submitMove g jf r1 c1 r2 c2).2) r2 c2) ∧
  (¬ (Z.abs (r2 - r1) = 2 ∧
      canJumpFrom (afterRelocation (board g) r1 c1 r2 c2) r2 c2) →
   (submitMove g jf r1 c1 r2 c2).1 = TurnComplete ∧
   currentPlayer (submitMove g jf r1 c1 r2 c2).2
     = otherPlayer (currentPlayer g) ∧
   (currentPlayer g = RED →
    currentPlayer (submitMove g jf r1 c1 r2 c2).2 = BLACK) ∧
   (currentPlayer g = BLACK →
    currentPlayer (submitMove g jf r1 c1 r2 c2).2 = RED)).
Proof.
  intros Hacc. rewrite <- mustContinue_true.
  destruct (submitMove_cases g jf r1 c1 r2 c2)
    as [[w H]|[(_ & Hj & _ & H)|(_ & _ & Hj & _ & H)]].
  - destruct (Hacc w). by rewrite H.
  - rewrite H, afterJump_executeMove.
    destruct (mustContinue (board g) r1 c1 r2 c2) eqn:Hc; simpl.
    + split; [|done]. intros _. split_and!; try done.
      by apply mustContinue_true in Hc as [_ ?].
    + split; [done|]. intros _.
      split_and!; [done|done|by intros ->|by intros ->].
  - rewrite H, executeMove_unfold, mustContinue_simple by done. simpl.
    split; [done|]. intros _.
    split_and!; [done|done|by intros ->|by intros ->].
Qed.

Lemma applied_move_continues_or_flips_witness :
  (submitMove (game chainState) true 2 1 4 3).1 = MustKeepJumping ∧
  currentPlayer (submitMove (game chainState) true 2 1 4 3).2 = BLACK.
Proof.
  assert (∀ why,
    (submitMove (game chainState) true 2 1 4 3).1 ≠ Rejected why) as Hacc
    by (intros why; vm_compute; discriminate).
  destruct (applied_move_continues_or_flips
              (game chainState) true 2 1 4 3 Hacc) as [H _].
  clear Hacc. destruct H as (H1 & H2 & _).
  - split; [vm_compute; reflexivity|].
    exists 6, 5. split; vm_compute; reflexivity.
  - split; [exact H1|]. rewrite H2. vm_compute. reflexivity.
Defined.

(** A man that captures into its back rank ends the turn there although,
    as the king it has become, it stands before a further capture: the
    further jump is looked for before the kinging, when the piece is still
    a man and may not jump backwards. *)
Example capture_into_back_rank_ends_turn :
  getPossibleJumpsForPiece (afterRelocation (board backRankGame) 2 1 0 3) 0 3
    = [] ∧
  (submitMove backRankGame true 2 1 0 3).1 = TurnComplete ∧
  (isKing <$> getPiece (board (submitMove backRankGame true 2 1 0 3).2) 0 3)
    = Some true ∧
  isJumpValid (board (submitMove backRankGame true 2 1 0 3).2) 0 3 2 5 = true.
Proof. split_and!; vm_compute; reflexivity. Qed.

Lemma midpoint_between a b :
  Z.abs (b - a) = 2 → Z.quot (a + b) 2 ≠ a ∧ Z.quot (a + b) 2 ≠ b.
Proof.
  intros H. rewrite midpoint_quot by done.
  assert (a + b = (a + 1) * 2 ∨ a + b = (a - 1) * 2) as [E|E] by lia;
    rewrite E, Z.div_mul by done; lia.
Qed.

Lemma lookup_afterRelocation b r1 c1 r2 c2 piece k :
  b !! (r1, c1) = Some piece →
  afterRelocation b r1 c1 r2 c2 !! k =
    if decide (Z.abs (r2 - r1) = 2
               ∧ k = (Z.quot (r1 + r2) 2, Z.quot (c1 + c2) 2))
    then None
    else if decide (k = (r1, c1)) then None
    else if decide (k = (r2, c2)) then Some (setPosition piece r2 c2)
    else b !! k.
Proof.
  intros Hp. unfold afterRelocation.
  destruct (Z.eqb_spec (Z.abs (r2 - r1)) 2) as [Hj|Hj].
  - rewrite removePiece_delete, lookup_delete.
    destruct (decide (_ = k)) as [<-|Hne].
    + by rewrite decide_True.
    + rewrite decide_False by (intros [_ ->]; done).
      by apply lookup_movePiece.
  - rewrite decide_False by (intros [? _]; done).
    by apply lookup_movePiece.
Qed.

Lemma kingIfBackRank_other b r c k :
  k ≠ (r, c) → kingIfBackRank b r c !! k = b !! k.
Proof.
  intros Hne. unfold kingIfBackRank.
  destruct (getPiece b r c) as [p|]; [|done].
  destruct (_ && _); [by rewrite lookup_insert_ne|].
  destruct (_ && _); [by rewrite lookup_insert_ne|done].
Qed.

Lemma kingIfBackRank_at b r c p :
  getPiece b r c = Some p →
  ∃ p', getPiece (kingIfBackRank b r c) r c = Some p' ∧
        owner p' = owner p ∧ row p' = row p ∧ col p' = col p ∧
        (isKing p' = true ↔ isKing p = true ∨ promotes p r).
Proof.
  intros Hp. pose proof Hp as [Hin Hl]%getPiece_Some.
  unfold kingIfBackRank, promotes, BOARD_SIZE. rewrite Hp.
  destruct (Player_eqb (owner p) RED && (r =? 0)) eqn:E1.
  { apply andb_true_iff in E1 as [Ho%Player_eqb_eq Hr%Z.eqb_eq].
    exists (makeKing p). rewrite getPiece_in_bounds, lookup_insert_eq by done.
    simpl. split_and!; try done. split; [|done]. intros _. right. by left. }
  destruct (Player_eqb (owner p) BLACK && (r =? 8 - 1)) eqn:E2.
  { apply andb_true_iff in E2 as [Ho%Player_eqb_eq Hr%Z.eqb_eq].
    exists (makeKing p). rewrite getPiece_in_bounds, lookup_insert_eq by done.
    simpl. split_and!; try done. split; [|done]. intros _. right. right.
    split; [done|lia]. }
  exists p. split_and!; try done. split; [by left|].
  intros [Hk|[[Ho Hr]|[Ho Hr]]]; [done| |].
  - apply Player_eqb_eq in Ho. apply Z.eqb_eq in Hr.
    by rewrite Ho, Hr in E1.
  - apply Player_eqb_eq in Ho. subst r. by rewrite Ho in E2.
Qed.

Lemma kingIfBackRank_idempotent b r c :
  kingIfBackRank (kingIfBackRank b r c) r c = kingIfBackRank b r c.
Proof.
  unfold kingIfBackRank at 2 3.
  destruct (getPiece b r c) as [p|] eqn:Hp.
  - pose proof Hp as [Hin Hl]%getPiece_Some.
    destruct (Player_eqb (owner p) RED && (r =? 0)) eqn:E1.
    { unfold kingIfBackRank.
      rewrite getPiece_in_bounds, lookup_insert_eq by done. simpl.
      rewrite E1. by rewrite insert_insert_eq. }
    destruct (Player_eqb (owner p) BLACK && (r =? BOARD_SIZE - 1)) eqn:E2.
    { unfold kingIfBackRank.
      rewrite getPiece_in_bounds, lookup_insert_eq by done. simpl.
      rewrite E1, E2. by rewrite insert_insert_eq. }
    unfold kingIfBackRank. by rewrite Hp, E1, E2.
  - unfold kingIfBackRank. by rewrite Hp.
Qed.

(** C4. The order of [executeMove], for a piece on [(r1, c1)] sent to
    another square of the board.  Steps 1 and 2 relocate the piece (its
    position updated, its rank untouched, the start square empty) and,
    after a jump, empty the square in between; step 3 looks for a further
    jump on that board.  If there is one the call ends there: the game
    handed back has that board and the same player, so no kinging took
    place and no change of player.  Only otherwise does step 4 look at the
    landing square, and the piece there is a king exactly when it was one
    or has reached its back rank (Red row 0, Black row 7), every other
    square staying as steps 1 and 2 left it; step 5 then changes the
    player.  Kinging sets the flag and nothing resets it: doing it twice
    is doing it once. *)
Theorem executeMove_order (g : CheckersGame) (r1 c1 r2 c2 : Z)
    (piece : Piece) :
  getPiece (board g) r1 c1 = Some piece →
  isInBounds r2 c2 = true →
  (r1, c1) ≠ (r2, c2) →
  (getPiece (afterRelocation (board g) r1 c1 r2 c2) r2 c2
     = Some (setPosition piece r2 c2) ∧
   getPiece (afterRelocation (board g) r1 c1 r2 c2) r1 c1 = None ∧
   (Z.abs (r2 - r1) = 2 →
    getPiece (afterRelocation (board g) r1 c1 r2 c2)
      (Z.quot (r1 + r2) 2) (Z.quot (c1 + c2) 2) = None)) ∧
  ((executeMove g r1 c1 r2 c2).1 = true ↔
   Z.abs (r2 - r1) = 2 ∧
   canJumpFrom (afterRelocation (board g) r1 c1 r2 c2) r2 c2) ∧
  ((executeMove g r1 c1 r2 c2).1 = true →
   (executeMove g r1 c1 r2 c2).2
     = {| board := afterRelocation (board g) r1 c1 r2 c2;
          currentPlayer := currentPlayer g |}) ∧
  ((executeMove g r1 c1 r2 c2).1 = false →
   currentPlayer (executeMove g r1 c1 r2 c2).2
     = otherPlayer (currentPlayer g) ∧
   (∀ r c, (r, c) ≠ (r2, c2) →
      board (executeMove g r1 c1 r2 c2).2 !! (r, c)
        = afterRelocation (board g) r1 c1 r2 c2 !! (r, c)) ∧
   ∃ p', getPiece (board (executeMove g r1 c1 r2 c2).2) r2 c2 = Some p' ∧
         owner p' = owner piece ∧ row p' = r2 ∧ col p' = c2 ∧
         (isKing p' = true ↔ isKing piece = true ∨ promotes piece r2)) ∧
  (∀ p, isKing (makeKing p) = true ∧ makeKing (makeKing p) = makeKing p) ∧
  (∀ b r c, kingIfBackRank (kingIfBackRank b r c) r c = kingIfBackRank b r c).
Proof.
  intros Hp Hb Hne. pose proof Hp as [Hin Hl]%getPiece_Some.
  assert (getPiece (afterRelocation (board g) r1 c1 r2 c2) r2 c2
          = Some (setPosition piece r2 c2)) as Hland.
  { rewrite getPiece_in_bounds, (lookup_afterRelocation _ _ _ _ _ piece)
      by done.
    rewrite decide_False.
    - rewrite decide_False by done. by rewrite decide_True.
    - intros [Hj [= E _]]. by apply midpoint_between in Hj as [_ ?]. }
  split_and!.
  - exact Hland.
  - rewrite getPiece_in_bounds, (lookup_afterRelocation _ _ _ _ _ piece)
      by done.
    destruct (decide _); [done|]. by rewrite decide_True.
  - intros Hj. rewrite getPiece_unfold.
    rewrite (lookup_afterRelocation _ _ _ _ _ piece) by done.
    rewrite decide_True by (split; [exact Hj|reflexivity]).
    by destruct (isInBounds (Z.quot (r1 + r2) 2) (Z.quot (c1 + c2) 2)).
  - rewrite executeMove_unfold, <- mustContinue_true. simpl.
    by destruct (mustContinue _ _ _ _ _).
  - rewrite executeMove_unfold. simpl.
    by destruct (mustContinue _ _ _ _ _).
  - rewrite executeMove_unfold. simpl.
    destruct (mustContinue _ _ _ _ _); [done|]. intros _. simpl.
    split_and!; [done| |].
    + intros r c Hrc. by apply kingIfBackRank_other.
    + destruct (kingIfBackRank_at _ _ _ _ Hland)
        as (p' & Hp' & Ho & Hr & Hc & Hk).
      exists p'. split_and!; try done.
  - intros p. by destruct p.
  - apply kingIfBackRank_idempotent.
Qed.

Lemma executeMove_order_witness :
  (executeMove (game chainState) 2 1 4 3).2
    = {| board := afterRelocation (board (game chainState)) 2 1 4 3;
         currentPlayer := BLACK |}.
Proof.
  assert (getPiece (board (game chainState)) 2 1 = Some (newPiece BLACK 2 1))
    as Hp by (vm_compute; reflexivity).
  assert (isInBounds 4 3 = true) as Hb by reflexivity.
  assert ((2, 1) ≠ (4, 3)) as Hne by discriminate.
  destruct (executeMove_order (game chainState) 2 1 4 3 _ Hp Hb Hne)
    as (_ & _ & H & _).
  clear Hp. rewrite H; [|vm_compute; reflexivity].
  f_equal.
Defined.

(** ** The board invariant along a run *)

Lemma boardInv_simple_move b r1 c1 r2 c2 :
  boardInv b → isSimpleMoveValid b r1 c1 r2 c2 = true →
  boardInv (movePiece b r1 c1 r2 c2).
Proof.
  intros Hb (p & [Hin _]%getPiece_Some & _ & Hr & Hc & _)%isSimpleMoveValid_true.
  apply boardInv_movePiece; try done. by apply parity_diagonal with 1.
Qed.

Lemma boardInv_jump b r1 c1 r2 c2 :
  boardInv b → isJumpValid b r1 c1 r2 c2 = true →
  boardInv (movePiece b r1 c1 r2 c2) ∧
  boardInv (removePiece (movePiece b r1 c1 r2 c2)
              (Z.quot (r1 + r2) 2) (Z.quot (c1 + c2) 2)).
Proof.
  intros Hb (p & ? & [Hin _]%getPiece_Some & _ & Hr & Hc & _)%isJumpValid_true.
  assert (boardInv (movePiece b r1 c1 r2 c2)) as Hm.
  { apply boardInv_movePiece; try done. by apply parity_diagonal with 2. }
  split; auto with board_inv.
Qed.

Lemma boardInv_submitMove g jf r1 c1 r2 c2 :
  boardInv (board g) → boardInv (board (submitMove g jf r1 c1 r2 c2).2).
Proof.
  intros Hb.
  destruct (submitMove_cases g jf r1 c1 r2 c2)
    as [[w H]|[(Ho & Hj & Hv & H)|(Ho & _ & _ & Hv & H)]]; rewrite H;
    [done| |]; simpl;
    apply ownedByCurrent_in_bounds, isInBounds_spec in Ho.
  - apply isJumpValid_true in Hv as (? & ? & _ & _ & Hr & Hc & _).
    by apply boardInv_executeMove with 2.
  - apply isSimpleMoveValid_true in Hv as (? & _ & _ & Hr & Hc & _).
    by apply boardInv_executeMove with 1.
Qed.

Lemma boardInv_step st input out st' :
  boardInv (board (game st)) → step st input = Some (out, st') →
  boardInv (board (game st')).
Proof.
  intros Hb (jf & Hs & Hcases)%step_cases.
  destruct Hcases as [[_ ->]|[[_ ->]|Hmove]]; [done|done|].
  destruct Hmove as (r1 & c1 & r2 & c2 & o & g' & _ & Hm & _ & ->).
  pose proof (boardInv_submitMove (game st) jf r1 c1 r2 c2 Hb) as H.
  rewrite Hm in H. destruct o; [done|done|]. by rewrite turnStart_game.
Qed.

Lemma boardInv_ReachableFrom g0 st :
  boardInv (board g0) → ReachableFrom g0 st → boardInv (board (game st)).
Proof.
  intros Hb. induction 1 as [|st input out st' _ IH Hstep].
  - by rewrite turnStart_game.
  - by eapply boardInv_step.
Qed.

(** C8. The board invariant (every piece stands on the slot its stored
    position names, and the light squares, those with [r + c] even, are
    empty) is established by [initializeBoard] on any board, is kept by the
    relocation of a valid simple move, by the relocation and the capture
    of a valid jump, by any removal and by the kinging step, and therefore
    holds in every state a run of the program reaches. *)
Theorem board_invariant_holds :
  (∀ b, boardInv (initializeBoard b)) ∧
  (∀ b r1 c1 r2 c2,
     boardInv b → isSimpleMoveValid b r1 c1 r2 c2 = true →
     boardInv (movePiece b r1 c1 r2 c2)) ∧
  (∀ b r1 c1 r2 c2,
     boardInv b → isJumpValid b r1 c1 r2 c2 = true →
     boardInv (movePiece b r1 c1 r2 c2) ∧
     boardInv (removePiece (movePiece b r1 c1 r2 c2)
                 (Z.quot (r1 + r2) 2) (Z.quot (c1 + c2) 2))) ∧
  (∀ b r c, boardInv b → boardInv (removePiece b r c)) ∧
  (∀ b r c, boardInv b → boardInv (kingIfBackRank b r c)) ∧
  (∀ g jf r1 c1 r2 c2,
     boardInv (board g) → boardInv (board (submitMove g jf r1 c1 r2 c2).2)) ∧
  (∀ st, Reachable st → boardInv (board (game st))).
Proof.
  split_and!.
  - apply boardInv_initializeBoard.
  - apply boardInv_simple_move.
  - apply boardInv_jump.
  - intros b r c Hb. by apply boardInv_removePiece.
  - intros b r c Hb. by apply boardInv_kingIfBackRank.
  - apply boardInv_submitMove.
  - intros st. apply boardInv_ReachableFrom. apply boardInv_initializeBoard.
Qed.

Lemma board_invariant_holds_witness :
  boardInv (board (game chainState)) ∧
  boardInv (movePiece (board initialGame) 5 0 4 1).
Proof.
  destruct board_invariant_holds as (Hinit & Hsimple & _ & _ & _ & _ & Hrun).
  split.
  - apply Hrun. apply Reachable_runOn.
  - apply Hsimple; [apply Hinit|]. vm_compute. reflexivity.
Defined.

(** C1, as amended.  In every state of the loop in which the player to
    move has a jump, a one-square diagonal candidate is turned down and
    the game stays as it was: with the jump-is-mandatory message when the
    start square holds a piece of the player to move, with the
    invalid-selection message when that square is empty or holds a piece
    of the other side.  Whatever the loop accepts in such a state is a
    valid jump. *)
Theorem simple_move_rejected_when_jump_available (g0 : CheckersGame)
    (st : RunState) (jf : bool) :
  ReachableFrom g0 st →
  status st = AwaitingMove jf →
  getAllPossibleJumps (game st) ≠ [] →
  (∀ r1 c1 r2 c2,
     Z.abs (r2 - r1) = 1 → Z.abs (c2 - c1) = 1 →
     (ownedByCurrent (game st) r1 c1 = true →
      submitMove (game st) jf r1 c1 r2 c2
        = (Rejected JumpMandatory, game st)) ∧
     (ownedByCurrent (game st) r1 c1 = false →
      submitMove (game st) jf r1 c1 r2 c2
        = (Rejected InvalidSelection, game st))) ∧
  (∀ r1 c1 r2 c2,
     (∀ why, (submitMove (game st) jf r1 c1 r2 c2).1 ≠ Rejected why) →
     Z.abs (r2 - r1) = 2 ∧
     isJumpValid (board (game st)) r1 c1 r2 c2 = true).
Proof.
  intros Hreach Hs Hjumps.
  pose proof (ReachableFrom_flagAgrees _ _ Hreach jf Hs) as Hf.
  apply isEmpty_false in Hjumps. rewrite Hjumps in Hf. simpl in Hf.
  subst jf. split.
  - intros r1 c1 r2 c2 Hr Hc. unfold submitMove.
    split; intros ->; simpl; [|done].
    by rewrite Hr.
  - intros r1 c1 r2 c2 Hacc.
    destruct (submitMove_cases (game st) true r1 c1 r2 c2)
      as [[w H]|[(_ & Hj & Hv & _)|(_ & ? & _)]]; [|done|done].
    destruct (Hacc w). by rewrite H.
Qed.

Lemma simple_move_rejected_when_jump_available_witness :
  submitMove (game captureState) true 5 0 4 1
    = (Rejected JumpMandatory, game captureState).
Proof.
  assert (status captureState = AwaitingMove true) as Hs
    by (vm_compute; reflexivity).
  assert (getAllPossibleJumps (game captureState) ≠ []) as Hj
    by (vm_compute; discriminate).
  destruct (simple_move_rejected_when_jump_available
              initialGame captureState true
              (Reachable_runOn _) Hs Hj) as [H _].
  clear Hs Hj.
  apply H; vm_compute; reflexivity.
Defined.

(** C1, as stated, fails: with Red bound to capture, the one-square
    diagonal candidate [A4 to B3] starts on an empty square and is turned
    down as an invalid selection, not as a breach of the mandatory jump. *)
Lemma simple_move_from_empty_square_not_capture_mandatory :
  Reachable captureState ∧
  status captureState = AwaitingMove true ∧
  getAllPossibleJumps (game captureState) ≠ [] ∧
  parseInput "A4 to B3" = Some (3, 0, 2, 1) ∧
  Z.abs (2 - 3) = 1 ∧ Z.abs (1 - 0) = 1 ∧
  (submitMove (game captureState) true 3 0 2 1).1
    = Rejected InvalidSelection ∧
  (submitMove (game captureState) true 3 0 2 1).1 ≠ Rejected JumpMandatory.
Proof.
  split; [apply Reachable_runOn|].
  split_and!; try (vm_compute; reflexivity); vm_compute; discriminate.
Qed.

(** C2, on the code.  After Black's jump [B3 to D5] the loop asks for a
    continuation (the piece on D5 can jump on to F7) and Black stays to
    move.  The line [H5 to F7], a jump by another Black piece, is then
    accepted: the turn is complete, Red is to move, the piece from H5
    stands on F7 with G6 captured, and the piece that had to go on is
    still on D5. *)
Theorem continuation_square_not_enforced :
  (fst <$> step chainState "B3 to D5") = Some (Some MustKeepJumping) ∧
  status chainContinuation = AwaitingMove true ∧
  currentPlayer (game chainContinuation) = BLACK ∧
  canJumpFrom (board (game chainContinuation)) 4 3 ∧
  parseInput "H5 to F7" = Some (4, 7, 6, 5) ∧
  (fst <$> step chainContinuation "H5 to F7") = Some (Some TurnComplete) ∧
  (submitMove (game chainContinuation) true 4 7 6 5).1 = TurnComplete ∧
  currentPlayer (submitMove (game chainContinuation) true 4 7 6 5).2 = RED ∧
  getPiece (board (submitMove (game chainContinuation) true 4 7 6 5).2) 6 5
    = Some (newPiece BLACK 6 5) ∧
  getPiece (board (submitMove (game chainContinuation) true 4 7 6 5).2) 5 6
    = None ∧
  getPiece (board (submitMove (game chainContinuation) true 4 7 6 5).2) 4 3
    = Some (newPiece BLACK 4 3) ∧
  (submitMove (game chainContinuation) true 4 7 6 5).2
    ≠ game chainContinuation.
Proof.
  split_and!; try (vm_compute; reflexivity).
  - exists 6, 5. split; vm_compute; reflexivity.
  - intros H. apply (f_equal currentPlayer) in H.
    vm_compute in H. discriminate.
Qed.

(** * Further properties of the program *)

(** ** The starting position *)

Lemma lookup_place_row (who : Player) (r' : Z) (cs : list Z) (b : Board)
    (r c : Z) :
  foldl (λ b c,
    if negb (Z.rem (r' + c) 2 =? 0) then <[(r', c) := newPiece who r' c]> b
    else b) b cs !! (r, c) =
  if decide (r = r' ∧ c ∈ cs ∧ Z.rem (r + c) 2 ≠ 0)
  then Some (newPiece who r c) else b !! (r, c).
Proof.
  revert b. induction cs as [|c0 cs IH]; intros b.
  - destruct (decide _) as [(_ & ?%elem_of_nil & _)|]; [done|reflexivity].
  - simpl foldl. rewrite IH. clear IH.
    destruct (decide (r = r' ∧ c ∈ cs ∧ Z.rem (r + c) 2 ≠ 0))
      as [(-> & Hc & Hd)|Hn].
    { rewrite decide_True; [done|]. split_and!; [done|by right|done]. }
    destruct (decide (r = r' ∧ c = c0 ∧ Z.rem (r + c) 2 ≠ 0))
      as [(-> & -> & Hd)|Hn2].
    + rewrite (proj2 (Z.eqb_neq _ _) Hd). simpl.
      rewrite lookup_insert_eq, decide_True; [done|].
      split_and!; [done|by left|done].
    + rewrite decide_False
        by (intros (-> & [->|?]%elem_of_cons & Hd); tauto).
      destruct (negb _) eqn:E; [|done].
      apply negb_true_iff, Z.eqb_neq in E.
      rewrite lookup_insert_ne; [done|]. intros [= -> ->]. tauto.
Qed.

Lemma lookup_place_loop (who : Player) (rs cs : list Z) (b : Board)
    (r c : Z) :
  foldl (λ b r,
    foldl (λ b c,
      if negb (Z.rem (r + c) 2 =? 0) then <[(r, c) := newPiece who r c]> b
      else b) b cs) b rs !! (r, c) =
  if decide (r ∈ rs ∧ c ∈ cs ∧ Z.rem (r + c) 2 ≠ 0)
  then Some (newPiece who r c) else b !! (r, c).
Proof.
  revert b. induction rs as [|r0 rs IH]; intros b.
  - destruct (decide _) as [(?%elem_of_nil & _)|]; [done|reflexivity].
  - simpl foldl. rewrite IH, lookup_place_row. clear IH.
    destruct (decide (r ∈ rs ∧ c ∈ cs ∧ Z.rem (r + c) 2 ≠ 0))
      as [(Hr & Hc & Hd)|Hn].
    { rewrite decide_True; [done|]. split_and!; [by right|done|done]. }
    apply decide_ext. split.
    + intros (-> & Hc & Hd). split_and!; [by left|done|done].
    + intros ([->|?]%elem_of_cons & Hc & Hd); [done|tauto].
Qed.

Lemma lookup_placePieces (who : Player) (lo hi : Z) (b : Board) (r c : Z) :
  placePieces who lo hi b !! (r, c) =
  if decide (lo ≤ r < hi ∧ 0 ≤ c < 8 ∧ Z.rem (r + c) 2 ≠ 0)
  then Some (newPiece who r c) else b !! (r, c).
Proof.
  unfold placePieces. rewrite lookup_place_loop.
  apply decide_ext. rewrite !elem_of_indices. unfold BOARD_SIZE. tauto.
Qed.

Lemma getPiece_initializeBoard (b : Board) (r c : Z) :
  getPiece (initializeBoard b) r c =
    if isInBounds r c then startingPiece r c else None.
Proof.
  rewrite getPiece_unfold. destruct (isInBounds r c) eqn:Hb; [|done].
  apply isInBounds_spec in Hb as [Hr Hc].
  unfold initializeBoard, startingPiece, BOARD_SIZE.
  rewrite !lookup_placePieces.
  assert (clearGrid b !! (r, c) = None) as ->.
  { unfold clearGrid. rewrite lookup_clear_loop, decide_True; [done|].
    by apply elem_of_allSquares, isInBounds_spec. }
  destruct (Z.eqb_spec (Z.rem (r + c) 2) 0) as [E|E]; simpl.
  - rewrite !decide_False by tauto. done.
  - destruct (Z.ltb_spec r 3), (Z.leb_spec 5 r); try lia.
    + rewrite decide_False by lia. rewrite decide_True by lia. done.
    + rewrite decide_True by lia. done.
    + rewrite !decide_False by lia. done.
Qed.

(** ** Counting, square by square *)

Lemma countPieces_loop b (l : list (Z * Z)) (n : Z * Z) :
  foldl (λ n rc,
    match getPiece b rc.1 rc.2 with
    | Some p =>
        let red := if Player_eqb (owner p) RED then n.1 + 1 else n.1 in
        let black := if Player_eqb (owner p) BLACK then n.2 + 1 else n.2 in
        (red, black)
    | None => n
    end) n l = (n.1 + tally RED b l, n.2 + tally BLACK b l).
Proof.
  revert n. induction l as [|rc l IH]; intros [n1 n2].
  - simpl. f_equal; lia.
  - simpl foldl. rewrite IH. clear IH. simpl.
    destruct (getPiece b rc.1 rc.2) as [p|]; simpl; [|f_equal; lia].
    destruct (Player_eqb (owner p) RED), (Player_eqb (owner p) BLACK);
      f_equal; lia.
Qed.

Lemma countPieces_tally b :
  countPieces b = (tally RED b allSquares, tally BLACK b allSquares).
Proof. unfold countPieces. by rewrite countPieces_loop. Qed.

Lemma tally_ext who b b' (l : list (Z * Z)) :
  (∀ r c, (r, c) ∈ l → getPiece b r c = getPiece b' r c) →
  tally who b l = tally who b' l.
Proof.
  induction l as [|[r c] l IH]; intros H; [done|].
  simpl. rewrite (H r c) by left. rewrite IH; [done|].
  intros r' c' Hin. apply H. by right.
Qed.

(** Two boards that differ on one square of a duplicate-free list. *)
Lemma tally_update who b b' (l : list (Z * Z)) r c :
  NoDup l → (r, c) ∈ l →
  (∀ r' c', (r', c') ∈ l → (r', c') ≠ (r, c) →
            getPiece b' r' c' = getPiece b r' c') →
  tally who b' l =
    tally who b l - counts who (getPiece b r c) + counts who (getPiece b' r c).
Proof.
  induction l as [|[r0 c0] l IH]; intros Hnd Hin Hsame;
    [by apply elem_of_nil in Hin|].
  apply NoDup_cons in Hnd as [Hnotin Hnd]. simpl.
  destruct (decide ((r0, c0) = (r, c))) as [[= -> ->]|Hne].
  - rewrite (tally_ext who b' b l); [lia|].
    intros r' c' Hin'. apply Hsame; [by right|]. by intros [= -> ->].
  - apply elem_of_cons in Hin as [[= <- <-]|Hin]; [done|].
    rewrite (Hsame r0 c0) by (done || left).
    rewrite IH; [lia|done|done|].
    intros r' c' Hin' Hne'. apply Hsame; [by right|done].
Qed.

Lemma NoDup_allSquares : NoDup allSquares.
Proof. apply (bool_decide_unpack (NoDup allSquares)). vm_compute. exact I. Qed.

Lemma tally_insert (who : Player) (b : Board) (r c : Z) (p : Piece) :
  isInBounds r c = true →
  tally who (<[(r, c) := p]> b) allSquares =
    tally who b allSquares - counts who (b !! (r, c)) + counts who (Some p).
Proof.
  intros Hb.
  rewrite (tally_update who b (<[(r, c) := p]> b) allSquares r c).
  - by rewrite !getPiece_in_bounds, lookup_insert_eq.
  - apply NoDup_allSquares.
  - by apply elem_of_allSquares.
  - intros r' c' _ Hne. rewrite !getPiece_unfold.
    by rewrite lookup_insert_ne.
Qed.

Lemma tally_delete (who : Player) (b : Board) (r c : Z) :
  tally who (delete (r, c) b) allSquares =
    tally who b allSquares - counts who (getPiece b r c).
Proof.
  destruct (isInBounds r c) eqn:Hb.
  - rewrite (tally_update who b (delete (r, c) b) allSquares r c).
    + rewrite (getPiece_in_bounds (delete _ _)), lookup_delete_eq by done.
      cbn [counts]. lia.
    + apply NoDup_allSquares.
    + by apply elem_of_allSquares.
    + intros r' c' _ Hne. rewrite !getPiece_unfold.
      by rewrite lookup_delete_ne.
  - rewrite (getPiece_unfold b r c), Hb. cbn [counts].
    rewrite (tally_ext who _ b); [lia|].
    intros r' c' Hin%elem_of_allSquares. rewrite !getPiece_unfold, Hin.
    apply lookup_delete_ne. intros [= -> ->]. congruence.
Qed.

Lemma countPieces_initializeBoard (b : Board) :
  countPieces (initializeBoard b) = (12, 12).
Proof.
  rewrite countPieces_tally.
  rewrite (tally_ext RED _ (initializeBoard emptyBoard)),
          (tally_ext BLACK _ (initializeBoard emptyBoard)).
  - vm_compute. reflexivity.
  - intros r c _. by rewrite !getPiece_initializeBoard.
  - intros r c _. by rewrite !getPiece_initializeBoard.
Qed.

(** X1. Whatever stood on the board before, [initializeBoard] leaves on
    every square exactly the starting piece: Black men on the dark squares
    of rows 0 to 2, Red men on the dark squares of rows 5 to 7, nothing
    anywhere else; [checkForWin] would count twelve pieces a side. *)
Theorem initializeBoard_layout (b : Board) :
  (∀ r c, getPiece (initializeBoard b) r c =
            if isInBounds r c then startingPiece r c else None) ∧
  countPieces (initializeBoard b) = (12, 12).
Proof.
  split; [apply getPiece_initializeBoard|apply countPieces_initializeBoard].
Qed.

(** ** What an accepted move does to the board *)

Lemma accepted_not_rejected o :
  accepted o ↔ ∀ why, o ≠ Rejected why.
Proof.
  unfold accepted. destruct o as [w| |]; split; try done.
  - intros [?|?]; done.
  - intros H. by destruct (H w).
  - intros _. by left.
  - intros _. by right.
Qed.

(** An accepted candidate: an own piece on the start square, an empty
    target, and either a valid jump or, with no jump forced, a valid
    simple move; the game handed back is the one [executeMove] returns. *)
Lemma accepted_move g jf r1 c1 r2 c2 :
  accepted (submitMove g jf r1 c1 r2 c2).1 →
  ∃ piece,
    getPiece (board g) r1 c1 = Some piece ∧
    owner piece = currentPlayer g ∧
    getPiece (board g) r2 c2 = None ∧
    (r1, c1) ≠ (r2, c2) ∧
    (submitMove g jf r1 c1 r2 c2).2 = (executeMove g r1 c1 r2 c2).2 ∧
    (submitMove g jf r1 c1 r2 c2).1 =
      (if mustContinue (board g) r1 c1 r2 c2
       then MustKeepJumping else TurnComplete) ∧
    ((Z.abs (r2 - r1) = 2 ∧ Z.abs (c2 - c1) = 2 ∧
      isJumpValid (board g) r1 c1 r2 c2 = true) ∨
     (jf = false ∧ Z.abs (r2 - r1) = 1 ∧ Z.abs (c2 - c1) = 1 ∧
      isSimpleMoveValid (board g) r1 c1 r2 c2 = true)).
Proof.
  intros Hacc. pose proof (proj1 (accepted_not_rejected _) Hacc) as Hnr.
  clear Hacc. rename Hnr into Hacc.
  destruct (submitMove_cases g jf r1 c1 r2 c2)
    as [[w H]|[(Ho & Hj & Hv & H)|(Ho & Hf & Hj & Hv & H)]].
  - destruct (Hacc w). by rewrite H.
  - apply ownedByCurrent_true in Ho as (piece & Hp & Ho).
    pose proof Hv as (p' & q & Hp' & Hq & Hr & Hc & _)%isJumpValid_true.
    exists piece. rewrite H, afterJump_executeMove, executeMove_unfold.
    split_and!; try done.
    + intros [= -> ->]. lia.
    + simpl. by destruct (mustContinue _ _ _ _ _).
    + simpl. by destruct (mustContinue _ _ _ _ _).
    + left. done.
  - apply ownedByCurrent_true in Ho as (piece & Hp & Ho).
    pose proof Hv as (p' & Hp' & Hq & Hr & Hc & _)%isSimpleMoveValid_true.
    exists piece. rewrite H, mustContinue_simple by done.
    split_and!; try done.
    + intros [= -> ->]. lia.
    + right. done.
Qed.

Lemma getPiece_landing b r1 c1 r2 c2 piece :
  getPiece b r1 c1 = Some piece → isInBounds r2 c2 = true →
  (r1, c1) ≠ (r2, c2) →
  getPiece (afterRelocation b r1 c1 r2 c2) r2 c2
    = Some (setPosition piece r2 c2).
Proof.
  intros [Hin Hl]%getPiece_Some Hb Hne.
  rewrite getPiece_in_bounds, (lookup_afterRelocation _ _ _ _ _ piece)
    by done.
  rewrite decide_False.
  - rewrite decide_False by done. by rewrite decide_True.
  - intros [Hj [= E _]]. by apply midpoint_between in Hj as [_ ?].
Qed.

(** Away from the landing square the relocation only empties squares. *)
Lemma getPiece_afterRelocation_other b r1 c1 r2 c2 piece r c p :
  getPiece b r1 c1 = Some piece → (r, c) ≠ (r2, c2) →
  getPiece (afterRelocation b r1 c1 r2 c2) r c = Some p →
  getPiece b r c = Some p.
Proof.
  intros [Hin Hl]%getPiece_Some Hne. rewrite !getPiece_unfold.
  destruct (isInBounds r c); [|done].
  rewrite (lookup_afterRelocation _ _ _ _ _ piece) by done.
  destruct (decide _); [done|]. destruct (decide _); [done|].
  by rewrite decide_False.
Qed.

(** A man standing on its far row has no jump: the only rows two away
    are behind it or off the board. *)
Lemma no_jump_from_far_row b r c p :
  getPiece b r c = Some p → isKing p = false → promotes p r →
  ¬ canJumpFrom b r c.
Proof.
  intros Hp Hk Hpr (r' & c' & [Hr' _]%isInBounds_spec & Hv).
  apply isJumpValid_true in Hv as (p' & _ & Hp' & _ & Hdr & _ & _ & _ & _ & Hd).
  rewrite Hp in Hp'. injection Hp' as <-.
  destruct (Hd Hk) as [Hred Hblack].
  destruct Hpr as [[Ho ->]|[Ho ->]].
  - specialize (Hred Ho). lia.
  - specialize (Hblack Ho). lia.
Qed.

(** Where the pieces of the board after an accepted move come from: a
    piece away from the landing square stood there before, unchanged; the
    piece on the landing square is the one that moved, with its owner,
    its new position, and its rank kept or raised. *)
Lemma pieces_after_move g jf r1 c1 r2 c2 r c p' :
  accepted (submitMove g jf r1 c1 r2 c2).1 →
  getPiece (board (submitMove g jf r1 c1 r2 c2).2) r c = Some p' →
  ((r, c) ≠ (r2, c2) ∧ getPiece (board g) r c = Some p') ∨
  ((r, c) = (r2, c2) ∧
   ∃ piece, getPiece (board g) r1 c1 = Some piece ∧
     owner piece = currentPlayer g ∧
     owner p' = owner piece ∧ row p' = r2 ∧ col p' = c2 ∧
     (isKing piece = true → isKing p' = true) ∧
     (promotes piece r2 → isKing p' = true)).
Proof.
  intros (piece & Hp & Ho & Hq & Hne & -> & _ & _)%accepted_move.
  rewrite executeMove_unfold. simpl. intros Hp'.
  destruct (decide ((r, c) = (r2, c2))) as [[= -> ->]|Hrc].
  - right. split; [done|]. exists piece. split; [done|]. split; [done|].
    assert (isInBounds r2 c2 = true) as Hb.
    { destruct (mustContinue _ _ _ _ _); simpl in Hp';
        by apply getPiece_Some in Hp' as [? _]. }
    pose proof (getPiece_landing _ _ _ _ _ _ Hp Hb Hne) as Hland.
    destruct (mustContinue (board g) r1 c1 r2 c2) eqn:Hc; simpl in Hp'.
    + rewrite Hland in Hp'. injection Hp' as <-. simpl.
      split_and!; try done. intros Hpr.
      destruct (isKing piece) eqn:Hk; [done|].
      apply mustContinue_true in Hc as [_ Hjump].
      destruct (no_jump_from_far_row _ _ _ _ Hland Hk Hpr Hjump).
    + destruct (kingIfBackRank_at _ _ _ _ Hland)
        as (q & Hq' & Hoq & Hrq & Hcq & Hkq).
      rewrite Hq' in Hp'. injection Hp' as <-.
      split_and!; [by rewrite Hoq|by rewrite Hrq|by rewrite Hcq| |];
        intros ?; apply Hkq; [by left|by right].
  - left. split; [done|].
    apply (getPiece_afterRelocation_other _ r1 c1 r2 c2 piece); try done.
    destruct (mustContinue _ _ _ _ _); simpl in Hp'; [done|].
    rewrite getPiece_unfold in Hp' |- *.
    destruct (isInBounds r c); [|done].
    by rewrite kingIfBackRank_other in Hp'.
Qed.

Lemma submitMove_same_or_accepted g jf r1 c1 r2 c2 :
  (submitMove g jf r1 c1 r2 c2).2 = g ∨
  accepted (submitMove g jf r1 c1 r2 c2).1.
Proof.
  destruct (submitMove_cases g jf r1 c1 r2 c2)
    as [[w H]|[(_ & _ & _ & H)|(_ & _ & _ & _ & H)]]; rewrite H.
  - by left.
  - right. rewrite afterJump_executeMove.
    destruct (mustContinue _ _ _ _ _); [by left|by right].
  - right. by right.
Qed.

(** A property of the game that the accepted moves keep holds all through
    a run. *)
Lemma run_invariant (P : CheckersGame → Prop) :
  P initialGame →
  (∀ g jf r1 c1 r2 c2,
     isInBounds r1 c1 = true → isInBounds r2 c2 = true → P g →
     accepted (submitMove g jf r1 c1 r2 c2).1 →
     P (submitMove g jf r1 c1 r2 c2).2) →
  ∀ st, Reachable st → P (game st).
Proof.
  intros Hinit Hkeep st. induction 1 as [|st input out st' _ IH Hstep].
  - by rewrite turnStart_game.
  - apply step_cases in Hstep as (jf & Hs & Hcases).
    destruct Hcases as [[_ ->]|[[_ ->]|Hmove]]; [done|done|].
    destruct Hmove as (r1 & c1 & r2 & c2 & o & g' & Hp & Hm & _ & ->).
    apply parseInput_Some in Hp as (Hb1 & Hb2 & _).
    assert (P g') as Hg'.
    { destruct (submitMove_same_or_accepted (game st) jf r1 c1 r2 c2)
        as [Hsame|Hacc].
      - rewrite Hm in Hsame. simpl in Hsame. by subst g'.
      - pose proof (Hkeep _ jf r1 c1 r2 c2 Hb1 Hb2 IH Hacc) as H.
        by rewrite Hm in H. }
    destruct o; [done|done|]. by rewrite turnStart_game.
Qed.

Lemma promotes_owner p q r : owner p = owner q → promotes p r → promotes q r.
Proof. unfold promotes. by intros ->. Qed.

(** X2. Promotion is never missed.  After any accepted move the piece on
    the landing square is a king if that square lies on its owner's far
    row (Red row 0, Black row 7): a man that captures its way there has no
    further jump, so the kinging step is reached.  Hence in every state of
    a run every Red piece on row 0 and every Black piece on row 7 is a
    king. *)
Theorem far_row_pieces_are_kings :
  (∀ g jf r1 c1 r2 c2 p',
     accepted (submitMove g jf r1 c1 r2 c2).1 →
     getPiece (board (submitMove g jf r1 c1 r2 c2).2) r2 c2 = Some p' →
     promotes p' r2 → isKing p' = true) ∧
  (∀ st, Reachable st → backRankCrowned (board (game st))).
Proof.
  assert (∀ g jf r1 c1 r2 c2 p',
     accepted (submitMove g jf r1 c1 r2 c2).1 →
     getPiece (board (submitMove g jf r1 c1 r2 c2).2) r2 c2 = Some p' →
     promotes p' r2 → isKing p' = true) as Hland.
  { intros g jf r1 c1 r2 c2 p' Hacc Hp' Hpr.
    destruct (pieces_after_move _ _ _ _ _ _ _ _ _ Hacc Hp')
      as [[? _]|(_ & piece & _ & _ & Ho & _ & _ & _ & Hk)]; [done|].
    apply Hk. by apply (promotes_owner p'). }
  split; [exact Hland|].
  apply (run_invariant (λ g, backRankCrowned (board g))).
  - intros r c p. simpl. rewrite getPiece_initializeBoard.
    destruct (isInBounds r c); [|done]. unfold startingPiece.
    destruct (negb _); [|done].
    destruct (Z.ltb_spec r 3); [|destruct (Z.leb_spec 5 r); [|done]];
      intros [= <-]; unfold promotes; simpl; intros [[? ?]|[? ?]];
      first [done|lia].
  - intros g jf r1 c1 r2 c2 _ _ Hinv Hacc r c p Hp Hpr.
    destruct (pieces_after_move _ _ _ _ _ _ _ _ _ Hacc Hp)
      as [[_ Hold]|([= -> ->] & _)].
    + by apply (Hinv r c).
    + by apply (Hland g jf r1 c1 r2 c2).
Qed.

Lemma far_row_pieces_are_kings_witness :
  isKing <$> getPiece (board (submitMove backRankGame true 2 1 0 3).2) 0 3
    = Some true.
Proof.
  destruct (getPiece (board (submitMove backRankGame true 2 1 0 3).2) 0 3)
    as [p'|] eqn:Hp'; [|vm_compute in Hp'; discriminate].
  simpl. f_equal.
  apply (proj1 far_row_pieces_are_kings backRankGame true 2 1 0 3 p').
  - right. vm_compute. reflexivity.
  - exact Hp'.
  - left. split; [|reflexivity].
    vm_compute in Hp'. injection Hp' as <-. reflexivity.
Defined.

Lemma ownersKnown_initializeBoard b : ownersKnown (initializeBoard b).
Proof.
  intros r c p. rewrite getPiece_initializeBoard.
  destruct (isInBounds r c); [|done]. unfold startingPiece.
  destruct (negb _); [|done].
  destruct (r <? 3); [by intros [= <-]|].
  destruct (5 <=? r); [by intros [= <-]|done].
Qed.

(** X3. The sides are always known: in every state of a run the player to
    move is Red or Black and every piece on the board belongs to Red or to
    Black, so the test for an ownerless captive in [isJumpValid] never
    decides anything. *)
Theorem sides_always_known (st : RunState) :
  Reachable st →
  currentPlayer (game st) ≠ NONE ∧ ownersKnown (board (game st)).
Proof.
  intros Hreach. split.
  - by apply (currentPlayer_ReachableFrom initialGame).
  - revert st Hreach.
    apply (run_invariant
             (λ g, currentPlayer g ≠ NONE ∧ ownersKnown (board g))).
    + split; [done|]. apply ownersKnown_initializeBoard.
    + intros g jf r1 c1 r2 c2 _ _ [Hcur Hinv] Hacc.
      split; [by apply currentPlayer_submitMove|].
      intros r c p Hp.
      destruct (pieces_after_move _ _ _ _ _ _ _ _ _ Hacc Hp)
        as [[_ Hold]|(_ & piece & _ & Ho & -> & _)].
      * by apply (Hinv r c).
      * by rewrite Ho.
Qed.

Lemma sides_always_known_witness :
  currentPlayer (game chainState) ≠ NONE ∧
  ownersKnown (board (game chainState)).
Proof. apply sides_always_known. apply Reachable_runOn. Defined.

(** ** Piece counts *)

Lemma tally_kingIfBackRank who b r c :
  tally who (kingIfBackRank b r c) allSquares = tally who b allSquares.
Proof.
  unfold kingIfBackRank.
  destruct (getPiece b r c) as [p|] eqn:Hp; [|done].
  apply getPiece_Some in Hp as [Hb Hl].
  assert (tally who (<[(r, c) := makeKing p]> b) allSquares
          = tally who b allSquares) as E.
  { rewrite tally_insert, Hl by done. cbn [counts makeKing owner]. lia. }
  destruct (_ && _); [done|]. by destruct (_ && _).
Qed.

Lemma tally_movePiece who b r1 c1 r2 c2 piece :
  getPiece b r1 c1 = Some piece → isInBounds r2 c2 = true →
  getPiece b r2 c2 = None → (r1, c1) ≠ (r2, c2) →
  tally who (movePiece b r1 c1 r2 c2) allSquares = tally who b allSquares.
Proof.
  intros [Hin Hl]%getPiece_Some Hb Hq Hne.
  rewrite getPiece_in_bounds in Hq by done.
  unfold movePiece. rewrite Hl, tally_delete, tally_insert, Hq by done.
  rewrite getPiece_in_bounds, lookup_insert_ne, Hl by done.
  cbn [counts setPosition owner]. lia.
Qed.

Lemma tally_afterRelocation who b r1 c1 r2 c2 piece :
  getPiece b r1 c1 = Some piece → isInBounds r2 c2 = true →
  getPiece b r2 c2 = None → (r1, c1) ≠ (r2, c2) →
  tally who (afterRelocation b r1 c1 r2 c2) allSquares =
    tally who b allSquares
    - (if Z.abs (r2 - r1) =? 2
       then counts who (getPiece b (Z.quot (r1 + r2) 2) (Z.quot (c1 + c2) 2))
       else 0).
Proof.
  intros Hp Hb Hq Hne. unfold afterRelocation.
  pose proof (tally_movePiece who _ _ _ _ _ _ Hp Hb Hq Hne) as Hm.
  destruct (Z.eqb_spec (Z.abs (r2 - r1)) 2) as [Hj|Hj]; [|lia].
  rewrite removePiece_delete, tally_delete, Hm. f_equal. f_equal.
  apply getPiece_Some in Hp as [Hin Hl].
  rewrite !getPiece_unfold.
  destruct (isInBounds (Z.quot (r1 + r2) 2) (Z.quot (c1 + c2) 2)); [|done].
  rewrite (lookup_movePiece _ _ _ _ _ piece) by done.
  destruct (midpoint_between _ _ Hj) as [H1 H2].
  rewrite !decide_False; [done| |]; intros [= ? ?]; done.
Qed.

Lemma board_executeMove g r1 c1 r2 c2 :
  board (executeMove g r1 c1 r2 c2).2 =
    if mustContinue (board g) r1 c1 r2 c2
    then afterRelocation (board g) r1 c1 r2 c2
    else kingIfBackRank (afterRelocation (board g) r1 c1 r2 c2) r2 c2.
Proof.
  rewrite executeMove_unfold. simpl. by destruct (mustContinue _ _ _ _ _).
Qed.

Lemma tally_executeMove who g r1 c1 r2 c2 :
  tally who (board (executeMove g r1 c1 r2 c2).2) allSquares =
    tally who (afterRelocation (board g) r1 c1 r2 c2) allSquares.
Proof.
  rewrite board_executeMove.
  destruct (mustContinue _ _ _ _ _); [done|]. apply tally_kingIfBackRank.
Qed.

(** X4. The arithmetic of captures, for a candidate with its target on
    the board: an accepted simple move leaves both counts of
    [checkForWin] as they were; an accepted jump leaves the count of the
    player who jumped as it was and lowers the other side's count by
    exactly one. *)
Theorem piece_counts_after_move (g : CheckersGame) (jf : bool)
    (r1 c1 r2 c2 : Z) :
  currentPlayer g ≠ NONE →
  isInBounds r2 c2 = true →
  accepted (submitMove g jf r1 c1 r2 c2).1 →
  countPieces (board (submitMove g jf r1 c1 r2 c2).2) =
    if Z.abs (r2 - r1) =? 2 then
      if Player_eqb (currentPlayer g) RED
      then ((countPieces (board g)).1, (countPieces (board g)).2 - 1)
      else ((countPieces (board g)).1 - 1, (countPieces (board g)).2)
    else countPieces (board g).
Proof.
  intros Hcur Hb (piece & Hp & Ho & Hq & Hne & -> & _ & Hkind)%accepted_move.
  rewrite !countPieces_tally, !tally_executeMove.
  rewrite !(tally_afterRelocation _ _ _ _ _ _ piece) by done.
  destruct Hkind as [(Hr & Hc & Hv)|(_ & Hr & _)].
  - rewrite (proj2 (Z.eqb_eq _ _) Hr).
    apply isJumpValid_true in Hv
      as (p & j & Hp' & _ & _ & _ & Hj & Hoj & Hn & _).
    rewrite Hp in Hp'. injection Hp' as <-. rewrite Hj.
    rewrite Ho in Hoj.
    generalize (tally RED (board g) allSquares),
               (tally BLACK (board g) allSquares). intros x y.
    cbn [counts].
    destruct (currentPlayer g), (owner j); try done; simpl; f_equal; lia.
  - rewrite (proj2 (Z.eqb_neq _ _)) by lia. f_equal; lia.
Qed.

Lemma piece_counts_after_move_witness :
  countPieces (board (submitMove (game captureState) true 4 3 2 1).2)
    = (12, 11).
Proof.
  rewrite (piece_counts_after_move (game captureState) true 4 3 2 1).
  - vm_compute. reflexivity.
  - vm_compute. discriminate.
  - reflexivity.
  - right. vm_compute. reflexivity.
Defined.

Lemma tally_nonneg who b (l : list (Z * Z)) : 0 ≤ tally who b l.
Proof.
  induction l as [|rc l IH]; simpl; [done|].
  unfold counts. destruct (getPiece b rc.1 rc.2) as [p|]; [|lia].
  destruct (Player_eqb (owner p) who); lia.
Qed.

Lemma countPieces_nonneg b :
  0 ≤ (countPieces b).1 ∧ 0 ≤ (countPieces b).2.
Proof.
  rewrite countPieces_tally. cbn [fst snd]. split; apply tally_nonneg.
Qed.

Lemma countPieces_submitMove_le g jf r1 c1 r2 c2 :
  currentPlayer g ≠ NONE → isInBounds r2 c2 = true →
  (countPieces (board (submitMove g jf r1 c1 r2 c2).2)).1
    ≤ (countPieces (board g)).1 ∧
  (countPieces (board (submitMove g jf r1 c1 r2 c2).2)).2
    ≤ (countPieces (board g)).2.
Proof.
  intros Hcur Hb.
  destruct (submitMove_same_or_accepted g jf r1 c1 r2 c2) as [Hsame|Hacc].
  { rewrite Hsame. split; reflexivity. }
  rewrite (piece_counts_after_move g jf r1 c1 r2 c2) by done.
  generalize (countPieces (board g)). intros [x y].
  destruct (_ =? 2); [|split; reflexivity].
  destruct (Player_eqb _ _); simpl; lia.
Qed.

Lemma currentPlayer_Reachable st :
  Reachable st → currentPlayer (game st) ≠ NONE.
Proof. by apply currentPlayer_ReachableFrom. Qed.

(** X5. Pieces never come back: no line typed into a run raises either
    count of [checkForWin], and neither side ever has more than the
    twelve pieces it starts with. *)
Theorem piece_counts_never_grow :
  (∀ st input out st',
     Reachable st → step st input = Some (out, st') →
     (countPieces (board (game st'))).1 ≤ (countPieces (board (game st))).1 ∧
     (countPieces (board (game st'))).2 ≤ (countPieces (board (game st))).2) ∧
  (∀ st, Reachable st →
     0 ≤ (countPieces (board (game st))).1 ≤ 12 ∧
     0 ≤ (countPieces (board (game st))).2 ≤ 12).
Proof.
  assert (∀ st input out st',
     Reachable st → step st input = Some (out, st') →
     (countPieces (board (game st'))).1 ≤ (countPieces (board (game st))).1 ∧
     (countPieces (board (game st'))).2 ≤ (countPieces (board (game st))).2)
    as Hstep.
  { intros st input out st' Hreach (jf & Hs & Hcases)%step_cases.
    destruct Hcases as [[_ ->]|[[_ ->]|Hmove]]; [cbn [game]; lia|lia|].
    destruct Hmove as (r1 & c1 & r2 & c2 & o & g' & Hp & Hm & _ & ->).
    apply parseInput_Some in Hp as (_ & Hb2 & _).
    pose proof (currentPlayer_Reachable _ Hreach) as Hcur.
    pose proof (countPieces_submitMove_le _ jf r1 c1 r2 c2 Hcur Hb2) as H.
    rewrite Hm in H. cbn [fst snd] in H.
    destruct o; cbn [game]; try done. by rewrite turnStart_game. }
  split; [exact Hstep|].
  intros st Hreach. pose proof (countPieces_nonneg (board (game st))).
  cut ((countPieces (board (game st))).1 ≤ 12
       ∧ (countPieces (board (game st))).2 ≤ 12); [lia|].
  clear H. induction Hreach as [|st input out st' Hreach IH Hst].
  - rewrite turnStart_game. unfold initialGame. cbn [board].
    rewrite countPieces_initializeBoard. cbn [fst snd]. lia.
  - pose proof (Hstep _ _ _ _ Hreach Hst). lia.
Qed.

Lemma piece_counts_never_grow_witness :
  0 ≤ (countPieces (board (game chainContinuation))).1 ≤ 12 ∧
  0 ≤ (countPieces (board (game chainContinuation))).2 ≤ 12.
Proof. apply piece_counts_never_grow. apply Reachable_runOn. Defined.

(** ** Input lines *)

Lemma In_indices x : 0 ≤ x < 8 → In x (indices 0 BOARD_SIZE).
Proof. intros H. by apply list_elem_of_In, elem_of_indices. Qed.

Lemma moveText_parses r1 c1 r2 c2 :
  isInBounds r1 c1 = true → isInBounds r2 c2 = true →
  (r1, c1) ≠ (r2, c2) →
  moveTextParses r1 c1 r2 c2 = true.
Proof.
  intros [Hr1 Hc1]%isInBounds_spec [Hr2 Hc2]%isInBounds_spec Hne.
  assert (allMoveTextsParse = true) as Hall by (vm_compute; reflexivity).
  unfold allMoveTextsParse in Hall.
  rewrite forallb_forall in Hall.
  specialize (Hall r1 (In_indices _ Hr1)). rewrite forallb_forall in Hall.
  specialize (Hall c1 (In_indices _ Hc1)). rewrite forallb_forall in Hall.
  specialize (Hall r2 (In_indices _ Hr2)). rewrite forallb_forall in Hall.
  specialize (Hall c2 (In_indices _ Hc2)).
  apply orb_true_iff in Hall as [[->%Z.eqb_eq ->%Z.eqb_eq]%andb_true_iff|H];
    done.
Qed.

(** X6. Round trip between the way the program prints squares and the way
    it reads moves: for any two different squares of the board, the line
    made of the name of the first, [ to ] and the name of the second is
    read back by [parseInput] as exactly that move. *)
Theorem parseInput_moveText (r1 c1 r2 c2 : Z) :
  isInBounds r1 c1 = true → isInBounds r2 c2 = true →
  (r1, c1) ≠ (r2, c2) →
  parseInput (moveText r1 c1 r2 c2) = Some (r1, c1, r2, c2).
Proof.
  intros H1 H2 Hne.
  pose proof (moveText_parses r1 c1 r2 c2 H1 H2 Hne) as H.
  unfold moveTextParses in H.
  apply andb_true_iff in H as [[H _]%andb_true_iff _].
  by apply bool_decide_eq_true in H.
Qed.

Lemma parseInput_moveText_witness :
  parseInput "A6 to B5" = Some (5, 0, 4, 1).
Proof.
  apply (parseInput_moveText 5 0 4 1); [reflexivity|reflexivity|discriminate].
Defined.

Lemma string_length_append (s t : string) :
  String.length (s ++ t) = (String.length s + String.length t)%nat.
Proof. induction s as [|a s IH]; simpl; [done|]. by rewrite IH. Qed.

Lemma get_beyond (s : string) (n : nat) :
  (String.length s ≤ n)%nat → String.get n s = None.
Proof.
  revert n. induction s as [|a s IH]; intros n Hn; [done|].
  destruct n as [|n]; simpl in *; [lia|]. apply IH. lia.
Qed.

Lemma charAt_append (s t : string) (i : nat) :
  (i < String.length s)%nat → charAt (s ++ t) i = charAt s i.
Proof. intros H. unfold charAt. by rewrite <- append_correct1. Qed.

Lemma substring_append (s t : string) (n m : nat) :
  (n + m ≤ String.length s)%nat →
  substring n m (s ++ t) = substring n m s.
Proof.
  intros H. apply get_correct. intros p.
  destruct (Nat.lt_ge_cases p m) as [Hp|Hp].
  - rewrite !substring_correct1 by done.
    symmetry. apply append_correct1. lia.
  - by rewrite !substring_correct2.
Qed.

(** X7. What [parseInput] does with lines that are not a move.  A line of
    fewer than eight characters is never a move (seven pass the length
    test, but the missing eighth reads as the terminator).  Whatever
    follows the eighth character is not looked at.  And coordinates that
    are delivered always name two different squares of the board. *)
Theorem parseInput_edges :
  (∀ input, (String.length input < 8)%nat → parseInput input = None) ∧
  (∀ input rest, (8 ≤ String.length input)%nat →
     parseInput (input ++ rest) = parseInput input) ∧
  (∀ input r1 c1 r2 c2,
     parseInput input = Some (r1, c1, r2, c2) →
     isInBounds r1 c1 = true ∧ isInBounds r2 c2 = true ∧
     (r1, c1) ≠ (r2, c2)).
Proof.
  split_and!.
  - intros input Hlen. unfold parseInput.
    destruct (Nat.ltb_spec (String.length input) 7) as [|H7]; [done|].
    destruct (negb (String.eqb _ _)); [done|].
    assert (charAt input 7 = 0) as ->.
    { unfold charAt. rewrite get_beyond; [done|lia]. }
    replace (isInBounds (0 - 49) (toupper (charAt input 6) - 65))
      with false; [by rewrite orb_true_r|].
    symmetry. apply isInBounds_false. lia.
  - intros input rest Hlen. unfold parseInput.
    rewrite string_length_append.
    destruct (Nat.ltb_spec (String.length input + String.length rest) 7);
      [lia|].
    destruct (Nat.ltb_spec (String.length input) 7); [lia|].
    rewrite substring_append by lia.
    by rewrite !charAt_append by lia.
  - apply parseInput_Some.
Qed.

Lemma parseInput_edges_witness :
  parseInput "A6 to B" = None ∧
  parseInput ("A6 to B5" ++ ", please") = parseInput "A6 to B5".
Proof.
  destruct parseInput_edges as (Hshort & Hrest & _). split.
  - apply Hshort. simpl. lia.
  - apply Hrest. simpl. lia.
Defined.

(** ** Acceptance, progress and the end of the game *)

Lemma submitMove_jump g jf r1 c1 r2 c2 :
  ownedByCurrent g r1 c1 = true →
  isJumpValid (board g) r1 c1 r2 c2 = true →
  submitMove g jf r1 c1 r2 c2 = afterJump (executeMove g r1 c1 r2 c2).
Proof.
  intros Ho Hv. unfold submitMove. rewrite Ho, Hv. simpl.
  apply isJumpValid_true in Hv as (_ & _ & _ & _ & -> & _).
  simpl. by destruct jf.
Qed.

Lemma submitMove_simple g r1 c1 r2 c2 :
  ownedByCurrent g r1 c1 = true →
  isSimpleMoveValid (board g) r1 c1 r2 c2 = true →
  submitMove g false r1 c1 r2 c2
    = (TurnComplete, (executeMove g r1 c1 r2 c2).2).
Proof.
  intros Ho Hv. unfold submitMove. rewrite Ho, Hv. simpl.
  apply isSimpleMoveValid_true in Hv as (_ & _ & _ & -> & _). done.
Qed.

Lemma accepted_afterJump res : accepted (afterJump res).1.
Proof. unfold afterJump. simpl. destruct res.1; [by left|by right]. Qed.



Lemma checkForWin_NONE g :
  checkForWin g = NONE →
  isEmpty (getAllPossibleJumps g) && isEmpty (getAllPossibleSimpleMoves g)
    = false.
Proof.
  unfold checkForWin.
  destruct (Z.eqb_spec (countPieces (board g)).1 0); [done|].
  destruct (Z.eqb_spec (countPieces (board g)).2 0); [done|].
  destruct (isEmpty (getAllPossibleJumps g)
            && isEmpty (getAllPossibleSimpleMoves g)); [|done].
  by destruct (currentPlayer g).
Qed.

Lemma turnStart_has_move g jf :
  status (turnStart g) = AwaitingMove jf →
  getAllPossibleJumps g ≠ [] ∨ getAllPossibleSimpleMoves g ≠ [].
Proof.
  unfold turnStart. destruct (checkForWin g) eqn:Hw; [|done|done].
  intros _. apply checkForWin_NONE in Hw.
  apply andb_false_iff in Hw as [H|H]; apply isEmpty_false in H;
    [by left|by right].
Qed.

(** While the loop waits for a line, the player to move has a move. *)
Lemma ReachableFrom_has_move g0 st jf :
  ReachableFrom g0 st → status st = AwaitingMove jf →
  getAllPossibleJumps (game st) ≠ [] ∨
  getAllPossibleSimpleMoves (game st) ≠ [].
Proof.
  intros Hreach. revert jf.
  induction Hreach as [|st input out st' Hreach IH Hstep]; intros jf' Hs'.
  - rewrite turnStart_game. by eapply turnStart_has_move.
  - apply step_cases in Hstep as (jf & Hs & Hcases).
    destruct Hcases as [[_ ->]|[[_ ->]|Hmove]]; [done|by eapply IH|].
    destruct Hmove as (r1 & c1 & r2 & c2 & o & g' & Hp & Hm & _ & ->).
    apply parseInput_Some in Hp as (_ & Hb2 & _).
    destruct (submitMove_cases (game st) jf r1 c1 r2 c2)
      as [[w H]|[(Ho & Hj & Hv & H)|(_ & _ & _ & _ & H)]];
      rewrite Hm in H.
    + injection H as -> ->. simpl. by eapply IH.
    + rewrite afterJump_executeMove in H.
      destruct (mustContinue _ _ _ _ _) eqn:Hc; injection H as -> ->.
      * left. simpl. by apply continuation_has_jump.
      * rewrite turnStart_game. by eapply turnStart_has_move.
    + injection H as -> ->. rewrite turnStart_game.
      by eapply turnStart_has_move.
Qed.

Lemma step_moveText st jf r1 c1 r2 c2 :
  status st = AwaitingMove jf →
  isInBounds r1 c1 = true → isInBounds r2 c2 = true →
  (r1, c1) ≠ (r2, c2) →
  ∃ st', step st (moveText r1 c1 r2 c2)
         = Some (Some (submitMove (game st) jf r1 c1 r2 c2).1, st').
Proof.
  intros Hs H1 H2 Hne.
  pose proof (moveText_parses r1 c1 r2 c2 H1 H2 Hne) as H.
  unfold moveTextParses in H.
  apply andb_true_iff in H as [[Hp He%negb_true_iff]%andb_true_iff
                                 Hq%negb_true_iff].
  apply bool_decide_eq_true in Hp.
  unfold step. rewrite Hs, He, Hq, Hp. simpl.
  destruct (submitMove (game st) jf r1 c1 r2 c2).1; by eexists.
Qed.

(** X9. The loop never waits for a move that cannot be made: in every
    state in which it reads a line, some line is a move it executes. *)
Theorem some_line_is_accepted (g0 : CheckersGame) (st : RunState)
    (jf : bool) :
  ReachableFrom g0 st →
  status st = AwaitingMove jf →
  ∃ input o st', step st input = Some (Some o, st') ∧ accepted o.
Proof.
  intros Hreach Hs.
  pose proof (ReachableFrom_flagAgrees _ _ Hreach jf Hs) as Hf.
  destruct (getAllPossibleJumps (game st)) as [|m l] eqn:Hj.
  - destruct (ReachableFrom_has_move _ _ _ Hreach Hs) as [H|H];
      [by rewrite Hj in H|].
    destruct (getAllPossibleSimpleMoves (game st)) as [|m l] eqn:Hm;
      [done|]. clear H.
    assert (m ∈ getAllPossibleSimpleMoves (game st)) as Hin
      by (rewrite Hm; left).
    apply elem_of_getAllPossibleSimpleMoves in Hin as (Ho & Hb & Hv).
    pose proof Hv as (_ & _ & _ & Hr & _)%isSimpleMoveValid_true.
    destruct (step_moveText st jf (startR m) (startC m) (endR m) (endC m))
      as [st' Hstep]; try done.
    { by apply isInBounds_spec, (ownedByCurrent_in_bounds (game st)). }
    { intros [= E _]. lia. }
    eexists _, _, st'. split; [exact Hstep|].
    simpl in Hf. subst jf. rewrite submitMove_simple by done. by right.
  - assert (m ∈ getAllPossibleJumps (game st)) as Hin by (rewrite Hj; left).
    apply elem_of_getAllPossibleJumps in Hin as (Ho & Hb & Hv).
    pose proof Hv as (_ & _ & _ & _ & Hr & _)%isJumpValid_true.
    destruct (step_moveText st jf (startR m) (startC m) (endR m) (endC m))
      as [st' Hstep]; try done.
    { by apply isInBounds_spec, (ownedByCurrent_in_bounds (game st)). }
    { intros [= E _]. lia. }
    eexists _, _, st'. split; [exact Hstep|].
    rewrite submitMove_jump by done. apply accepted_afterJump.
Qed.

Lemma some_line_is_accepted_witness :
  ∃ input o st', step chainContinuation input = Some (Some o, st')
                 ∧ accepted o.
Proof.
  apply (some_line_is_accepted initialGame chainContinuation true).
  - apply Reachable_runOn.
  - vm_compute. reflexivity.
Defined.

(** X10. Capturing the last piece wins on the spot: when a line is
    executed and leaves the other side without a piece, the loop ends
    there with the player who moved as the winner. *)
Theorem last_capture_wins (st : RunState) (input : string) (o : Outcome)
    (st' : RunState) :
  currentPlayer (game st) ≠ NONE →
  step st input = Some (Some o, st') →
  accepted o →
  ¬ hasPiece (otherPlayer (currentPlayer (game st))) (board (game st')) →
  status st' = Won (currentPlayer (game st)).
Proof.
  intros Hcur (jf & Hs & Hcases)%step_cases Hacc Hnone.
  destruct Hcases as [[? _]|[[E _]|Hmove]];
    [done|injection E as ->; by destruct Hacc|].
  destruct Hmove as (r1 & c1 & r2 & c2 & o' & g' & Hp & Hm & [= <-] & ->).
  apply parseInput_Some in Hp as (_ & Hb2 & _).
  assert (accepted (submitMove (game st) jf r1 c1 r2 c2).1) as Hacc'
    by by rewrite Hm.
  pose proof Hacc' as (piece & Hpc & Ho & _ & Hne & Hg & Ho' & _)%accepted_move.
  rewrite Hm in Hg, Ho'. simpl in Hg, Ho'. subst g'.
  pose proof (getPiece_landing _ _ _ _ _ _ Hpc Hb2 Hne) as Hland.
  destruct (mustContinue (board (game st)) r1 c1 r2 c2) eqn:Hc; subst o.
  - exfalso. apply Hnone. simpl. rewrite board_executeMove, Hc.
    apply mustContinue_true in Hc as [_ (r3 & c3 & _ & Hv)].
    apply isJumpValid_true in Hv
      as (p & j & Hp' & _ & _ & _ & Hj & Hoj & Hn & _).
    rewrite Hland in Hp'. injection Hp' as <-. simpl in Hoj.
    exists (Z.quot (r2 + r3) 2), (Z.quot (c2 + c3) 2), j.
    split; [done|]. apply otherPlayer_opposes; [done|]. by rewrite <- Ho.
  - rewrite turnStart_game in Hnone.
    assert (board (executeMove (game st) r1 c1 r2 c2).2
            = kingIfBackRank
                (afterRelocation (board (game st)) r1 c1 r2 c2) r2 c2) as HB
      by (by rewrite board_executeMove, Hc).
    destruct (kingIfBackRank_at _ _ _ _ Hland) as (q & Hq & Hoq & _).
    assert (hasPiece (currentPlayer (game st))
              (board (executeMove (game st) r1 c1 r2 c2).2)) as Hmine.
    { rewrite HB. exists r2, c2, q. split; [done|]. by rewrite Hoq. }
    unfold turnStart.
    destruct (currentPlayer (game st)) eqn:Hwho; [done| |].
    + rewrite checkForWin_no_black; [done|exact Hmine|exact Hnone].
    + rewrite checkForWin_no_red; [done|exact Hnone].
Qed.

Lemma last_capture_wins_witness :
  status (turnStart (submitMove (game lastCaptureState) true 2 1 0 3).2)
    = Won RED.
Proof.
  apply (last_capture_wins lastCaptureState "B3 to D1" TurnComplete).
  - vm_compute. discriminate.
  - vm_compute. reflexivity.
  - by right.
  - apply (countPieces_zero _). vm_compute. reflexivity.
Defined.

(** ** Moving there and back *)

(** X11. A relocation is undone by the opposite relocation: on a board
    where the piece on [(r1, c1)] knows its square and [(r2, c2)] is
    empty, moving the piece to [(r2, c2)] and back gives the board one
    started from, stored position included. *)
Theorem movePiece_there_and_back (b : Board) (r1 c1 r2 c2 : Z)
    (piece : Piece) :
  b !! (r1, c1) = Some piece →
  row piece = r1 → col piece = c1 →
  b !! (r2, c2) = None →
  movePiece (movePiece b r1 c1 r2 c2) r2 c2 r1 c1 = b.
Proof.
  intros Hp Hr Hc Hq.
  assert ((r1, c1) ≠ (r2, c2)) as Hne by (intros [= -> ->]; congruence).
  assert (movePiece b r1 c1 r2 c2 !! (r2, c2)
          = Some (setPosition piece r2 c2)) as Hland.
  { rewrite (lookup_movePiece _ _ _ _ _ piece) by done.
    rewrite decide_False by done. by rewrite decide_True. }
  apply map_eq. intros k.
  rewrite (lookup_movePiece _ _ _ _ _ (setPosition piece r2 c2)) by done.
  destruct (decide (k = (r2, c2))) as [->|Hk2]; [done|].
  destruct (decide (k = (r1, c1))) as [->|Hk1].
  - rewrite Hp. f_equal. destruct piece. simpl in *. by subst.
  - rewrite (lookup_movePiece _ _ _ _ _ piece) by done.
    by rewrite !decide_False.
Qed.

Lemma movePiece_there_and_back_witness :
  movePiece (movePiece (board initialGame) 5 0 4 1) 4 1 5 0
    = board initialGame.
Proof.
  apply (movePiece_there_and_back _ 5 0 4 1 (newPiece RED 5 0));
    vm_compute; reflexivity.
Defined.

(** ** The two lists of moves *)

(** X12. The simple moves listed for the player to move are exactly the
    legal ones: own piece on the start square, target on the board, empty
    and one row and one column away, a man moving in its direction. *)
Theorem simple_move_legal_iff (g : CheckersGame) (m : Move) :
  m ∈ getAllPossibleSimpleMoves g ↔ legalSimpleMove g m.
Proof.
  rewrite elem_of_getAllPossibleSimpleMoves.
  apply guarded_isSimpleMoveValid.
Qed.

Lemma NoDup_indices lo hi : NoDup (indices lo hi).
Proof. apply NoDup_seqZ. Qed.

Lemma NoDup_direction_loop (dirs : list (Z * Z)) (r c : Z)
    (valid : Z → Z → bool) :
  NoDup dirs →
  NoDup (d ← dirs;
         let r2 := r + d.1 in
         let c2 := c + d.2 in
         if valid r2 c2 then [mkMove r c r2 c2] else []).
Proof.
  intros Hnd. apply NoDup_bind; [| |done].
  - intros [dr1 dc1] [dr2 dc2] y _ _ H1 H2. simpl in *.
    destruct (valid _ _); [|by apply elem_of_nil in H1].
    destruct (valid _ _); [|by apply elem_of_nil in H2].
    apply list_elem_of_singleton in H1, H2. subst y.
    injection H2 as E1 E2. f_equal; lia.
  - intros d _. simpl. destruct (valid _ _);
      [apply NoDup_singleton|apply NoDup_nil_2].
Qed.

Lemma NoDup_board_loop (f : Z → Z → list Move) :
  (∀ r c m, m ∈ f r c → startR m = r ∧ startC m = c) →
  (∀ r c, NoDup (f r c)) →
  NoDup (r ← indices 0 BOARD_SIZE; c ← indices 0 BOARD_SIZE; f r c).
Proof.
  intros Hstart Hnd. apply NoDup_bind; [| |apply NoDup_indices].
  - intros r r' m _ _ (c & Hm & _)%list_elem_of_bind
      (c' & Hm' & _)%list_elem_of_bind.
    apply Hstart in Hm as [<- _], Hm' as [<- _]. done.
  - intros r _. apply NoDup_bind; [| |apply NoDup_indices].
    + intros c c' m _ _ Hm Hm'.
      apply Hstart in Hm as [_ <-], Hm' as [_ <-]. done.
    + intros c _. apply Hnd.
Qed.

(** X13. No move is listed twice: [getAllPossibleJumps] and
    [getAllPossibleSimpleMoves] are free of duplicates, and a piece has at
    most four jumps. *)
Theorem moves_listed_once (g : CheckersGame) :
  NoDup (getAllPossibleJumps g) ∧
  NoDup (getAllPossibleSimpleMoves g) ∧
  (∀ r c, (length (getPossibleJumpsForPiece (board g) r c) ≤ 4)%nat).
Proof.
  split_and!.
  - apply NoDup_board_loop.
    + intros r c m. destruct (ownedByCurrent g r c);
        [|by intros ?%elem_of_nil].
      by intros (? & ? & _)%elem_of_getPossibleJumpsForPiece.
    + intros r c. destruct (ownedByCurrent g r c); [|apply NoDup_nil_2].
      unfold getPossibleJumpsForPiece.
      destruct (getPiece (board g) r c); [|apply NoDup_nil_2].
      apply (NoDup_direction_loop jumpDirections r c
               (λ r2 c2, isInBounds r2 c2
                         && isJumpValid (board g) r c r2 c2)).
      apply (bool_decide_unpack (NoDup jumpDirections)). vm_compute. exact I.
  - apply NoDup_board_loop.
    + intros r c m. destruct (ownedByCurrent g r c);
        [|by intros ?%elem_of_nil].
      intros (d & Hm & _)%list_elem_of_bind. simpl in Hm.
      destruct (_ && _); [|by apply elem_of_nil in Hm].
      by apply list_elem_of_singleton in Hm as ->.
    + intros r c. destruct (ownedByCurrent g r c); [|apply NoDup_nil_2].
      apply (NoDup_direction_loop simpleDirections r c
               (λ r2 c2, isInBounds r2 c2
                         && isSimpleMoveValid (board g) r c r2 c2)).
      apply (bool_decide_unpack (NoDup simpleDirections)). vm_compute.
      exact I.
  - intros r c. unfold getPossibleJumpsForPiece.
    destruct (getPiece (board g) r c); [|simpl; lia].
    unfold jumpDirections. simpl.
    repeat (destruct (_ && _); simpl); lia.
Qed.

(** ** What an accepted move changes *)

(** X14. The footprint of an accepted move whose target is on the board:
    the start square is empty afterwards, after a jump so is the square
    in between, the landing square holds a piece of the player who
    moved, and every other square of the board is exactly as it was. *)
Theorem accepted_move_footprint (g : CheckersGame) (jf : bool)
    (r1 c1 r2 c2 : Z) :
  isInBounds r2 c2 = true →
  accepted (submitMove g jf r1 c1 r2 c2).1 →
  getPiece (board (submitMove g jf r1 c1 r2 c2).2) r1 c1 = None ∧
  (Z.abs (r2 - r1) = 2 →
   getPiece (board (submitMove g jf r1 c1 r2 c2).2)
     (Z.quot (r1 + r2) 2) (Z.quot (c1 + c2) 2) = None) ∧
  (∃ p, getPiece (board (submitMove g jf r1 c1 r2 c2).2) r2 c2 = Some p ∧
        owner p = currentPlayer g ∧ row p = r2 ∧ col p = c2) ∧
  (∀ r c,
     (r, c) ≠ (r1, c1) → (r, c) ≠ (r2, c2) →
     ¬ (Z.abs (r2 - r1) = 2
        ∧ (r, c) = (Z.quot (r1 + r2) 2, Z.quot (c1 + c2) 2)) →
     getPiece (board (submitMove g jf r1 c1 r2 c2).2) r c
       = getPiece (board g) r c).
Proof.
  intros Hb (piece & Hp & Ho & Hq & Hne & -> & _ & _)%accepted_move.
  pose proof Hp as [Hin Hl]%getPiece_Some.
  pose proof (getPiece_landing _ _ _ _ _ _ Hp Hb Hne) as Hland.
  assert (∀ r c, (r, c) ≠ (r2, c2) →
    getPiece (board (executeMove g r1 c1 r2 c2).2) r c
    = getPiece (afterRelocation (board g) r1 c1 r2 c2) r c) as Hother.
  { intros r c Hrc. rewrite board_executeMove.
    destruct (mustContinue _ _ _ _ _); [done|].
    rewrite !getPiece_unfold. destruct (isInBounds r c); [|done].
    by apply kingIfBackRank_other. }
  split_and!.
  - rewrite Hother by done.
    rewrite getPiece_in_bounds, (lookup_afterRelocation _ _ _ _ _ piece)
      by done.
    destruct (decide _); [done|]. by rewrite decide_True.
  - intros Hj. destruct (midpoint_between _ _ Hj) as [_ Hm2].
    rewrite Hother by (intros [= ? _]; done).
    rewrite getPiece_unfold, (lookup_afterRelocation _ _ _ _ _ piece)
      by done.
    rewrite decide_True by done.
    by destruct (isInBounds (Z.quot (r1 + r2) 2) (Z.quot (c1 + c2) 2)).
  - rewrite board_executeMove.
    destruct (mustContinue _ _ _ _ _).
    + exists (setPosition piece r2 c2). by rewrite Hland.
    + destruct (kingIfBackRank_at _ _ _ _ Hland)
        as (q & Hq' & Hoq & Hrq & Hcq & _).
      exists q. rewrite Hoq, Hrq, Hcq. done.
  - intros r c H1 H2 Hmid. rewrite Hother by done.
    rewrite !getPiece_unfold. destruct (isInBounds r c); [|done].
    rewrite (lookup_afterRelocation _ _ _ _ _ piece) by done.
    by rewrite !decide_False.
Qed.

Lemma accepted_move_footprint_witness :
  getPiece (board (submitMove (game captureState) true 4 3 2 1).2) 4 3
    = None.
Proof.
  assert (accepted (submitMove (game captureState) true 4 3 2 1).1) as Hacc
    by (right; vm_compute; reflexivity).
  destruct (accepted_move_footprint (game captureState) true 4 3 2 1
              eq_refl Hacc) as [H _].
  exact H.
Defined.

(** ** The printed board *)

Lemma string_append_cons a (s t : string) :
  (String a s ++ t = String a (s ++ t))%string.
Proof. reflexivity. Qed.

Lemma string_append_assoc (s t u : string) :
  ((s ++ t) ++ u = s ++ (t ++ u))%string.
Proof.
  induction s as [|a s IH]; [done|].
  rewrite !string_append_cons. by rewrite IH.
Qed.

Lemma string_append_nil_r (s : string) : (s ++ EmptyString = s)%string.
Proof.
  induction s as [|a s IH]; [done|].
  rewrite string_append_cons. by rewrite IH.
Qed.

Lemma string_append_inj (s1 s2 t1 t2 : string) :
  String.length s1 = String.length s2 →
  (s1 ++ t1 = s2 ++ t2)%string → s1 = s2 ∧ t1 = t2.
Proof.
  revert s2. induction s1 as [|a s1 IH]; intros [|a' s2] Hlen H; try done.
  rewrite !string_append_cons in H.
  injection H as -> H. injection Hlen as Hlen.
  by destruct (IH s2 Hlen H) as [-> ->].
Qed.

Lemma string_append_cancel (s t1 t2 : string) :
  (s ++ t1 = s ++ t2)%string → t1 = t2.
Proof. intros H. by apply string_append_inj in H as [_ ?]. Qed.

(** Printing piece after piece is printing the pieces joined. *)
Lemma output_loop {A} (f : A → string) (l : list A) (out : string) :
  foldl (λ out x, (out ++ f x)%string) out l = (out ++ joined f l)%string.
Proof.
  revert out. induction l as [|x l IH]; intros out.
  - symmetry. apply string_append_nil_r.
  - simpl foldl. rewrite IH. apply string_append_assoc.
Qed.

Lemma joined_length {A} (f g : A → string) (l : list A) :
  (∀ x, String.length (f x) = String.length (g x)) →
  String.length (joined f l) = String.length (joined g l).
Proof.
  intros H. induction l as [|x l IH]; [done|].
  unfold joined. simpl foldr. fold (joined f l). fold (joined g l).
  by rewrite !string_length_append, H, IH.
Qed.

Lemma joined_inj {A} (f g : A → string) (l : list A) :
  (∀ x, String.length (f x) = String.length (g x)) →
  joined f l = joined g l → ∀ x, x ∈ l → f x = g x.
Proof.
  intros Hlen. induction l as [|y l IH]; intros H x Hx;
    [by apply elem_of_nil in Hx|].
  unfold joined in H. simpl foldr in H.
  fold (joined f l) in H. fold (joined g l) in H.
  apply string_append_inj in H as [Hy Hl]; [|by apply Hlen].
  apply elem_of_cons in Hx as [->|Hx]; [done|]. by apply IH.
Qed.

(** Two texts made of the same opening, pieces of matching lengths and
    the same ending. *)
Lemma joined_between {A} (f g : A → string) (l : list A) (t t' : string) :
  (∀ x, String.length (f x) = String.length (g x)) →
  ((EmptyString ++ joined f l) ++ t = (EmptyString ++ joined g l) ++ t')%string →
  ∀ x, x ∈ l → f x = g x.
Proof.
  intros Hlen H. apply string_append_inj in H as [H _].
  - apply string_append_cancel in H. by apply joined_inj.
  - rewrite !string_length_append. f_equal. by apply joined_length.
Qed.

Lemma displayCell_length b i j : String.length (displayCell b i j) = 2%nat.
Proof.
  unfold displayCell. destruct (b !! (i, j)); [done|].
  by destruct (negb _).
Qed.

Lemma displayRow_cells b b' i :
  displayRow b i = displayRow b' i →
  ∀ j, j ∈ indices 0 BOARD_SIZE → displayCell b i j = displayCell b' i j.
Proof.
  unfold displayRow. rewrite !output_loop. intros H.
  do 2 apply string_append_cancel in H.
  apply (joined_between _ _ _ _ _ (λ j, eq_trans (displayCell_length b i j)
           (eq_sym (displayCell_length b' i j))) H).
Qed.

Lemma displayRow_length b b' i :
  String.length (displayRow b i) = String.length (displayRow b' i).
Proof.
  unfold displayRow. rewrite !output_loop.
  rewrite !string_length_append. do 3 f_equal.
  apply joined_length. intros j. by rewrite !displayCell_length.
Qed.

Lemma displayBoard_rows b b' :
  displayBoard b = displayBoard b' →
  ∀ i, i ∈ indices 0 BOARD_SIZE → displayRow b i = displayRow b' i.
Proof.
  unfold displayBoard. rewrite !output_loop. intros H.
  do 5 apply string_append_cancel in H.
  apply (joined_between _ _ _ _ _ (displayRow_length b b') H).
Qed.

Lemma getSymbol_known p :
  owner p ≠ NONE →
  getSymbol p = (if isKing p then (if Player_eqb (owner p) RED then "K" else "k")
                 else (if Player_eqb (owner p) RED then "R" else "B"))%char.
Proof. unfold getSymbol. destruct p as [[] [] ? ?]; simpl; done. Qed.

(** X15. The printed board tells the position.  On boards whose pieces all
    belong to Red or Black, the four symbols tell owner and rank apart,
    and two boards that [displayBoard] prints alike have, on every square
    of the board, pieces of the same owner and the same rank or no piece
    at all. *)
Theorem displayBoard_faithful (b b' : Board) :
  ownersKnown b → ownersKnown b' →
  displayBoard b = displayBoard b' →
  ∀ r c, isInBounds r c = true →
    owner <$> getPiece b r c = owner <$> getPiece b' r c ∧
    isKing <$> getPiece b r c = isKing <$> getPiece b' r c.
Proof.
  intros Hk Hk' Hd r c Hb. pose proof Hb as [Hr Hc]%isInBounds_spec.
  assert (displayCell b r c = displayCell b' r c) as Hcell.
  { apply displayRow_cells; [|by apply elem_of_indices].
    apply displayBoard_rows; [done|by apply elem_of_indices]. }
  specialize (Hk r c). specialize (Hk' r c).
  rewrite !getPiece_in_bounds in * by done.
  unfold displayCell in Hcell.
  destruct (b !! (r, c)) as [p|], (b' !! (r, c)) as [p'|]; simpl.
  - specialize (Hk p eq_refl). specialize (Hk' p' eq_refl).
    injection Hcell as Hsym.
    rewrite !getSymbol_known in Hsym by done.
    destruct p as [[] [] ? ?], p' as [[] [] ? ?]; simpl in *; done.
  - specialize (Hk p eq_refl). rewrite getSymbol_known in Hcell by done.
    destruct p as [[] [] ? ?]; simpl in *; try done;
      by destruct (negb _).
  - specialize (Hk' p' eq_refl). rewrite getSymbol_known in Hcell by done.
    destruct p' as [[] [] ? ?]; simpl in *; try done;
      by destruct (negb _).
  - done.
Qed.

Lemma displayBoard_faithful_witness :
  owner <$> getPiece (initializeBoard (board (game chainState))) 5 0
    = owner <$> getPiece (board initialGame) 5 0 ∧
  isKing <$> getPiece (initializeBoard (board (game chainState))) 5 0
    = isKing <$> getPiece (board initialGame) 5 0.
Proof.
  apply displayBoard_faithful.
  - apply ownersKnown_initializeBoard.
  - apply ownersKnown_initializeBoard.
  - vm_compute. reflexivity.
  - reflexivity.
Defined.

(** ** The flag of the turn and the direction of men *)

(** X16. The flag computed at the head of a turn stays right while the
    inner loop runs: in every state in which the loop reads a line, a
    jump is held to be mandatory exactly when the player to move has a
    jump on the board as it is then, rejected lines and jumps of a chain
    included. *)
Theorem forced_flag_stays_right (g0 : CheckersGame) (st : RunState)
    (jf : bool) :
  ReachableFrom g0 st →
  status st = AwaitingMove jf →
  (jf = true ↔ getAllPossibleJumps (game st) ≠ []).
Proof.
  intros Hreach Hs.
  rewrite (ReachableFrom_flagAgrees _ _ Hreach jf Hs).
  rewrite negb_true_iff. apply isEmpty_false.
Qed.

Lemma forced_flag_stays_right_witness :
  getAllPossibleJumps (game chainContinuation) ≠ [].
Proof.
  apply (forced_flag_stays_right initialGame chainContinuation true).
  - apply Reachable_runOn.
  - vm_compute. reflexivity.
  - reflexivity.
Defined.

(** X17. Men never go back: whenever the loop executes a move of a piece
    that is not a king, a Red piece ends on a smaller row index and a
    Black piece on a larger one, by one row for a simple move and by two
    for a jump. *)
Theorem men_move_forward (g : CheckersGame) (jf : bool) (r1 c1 r2 c2 : Z)
    (piece : Piece) :
  accepted (submitMove g jf r1 c1 r2 c2).1 →
  getPiece (board g) r1 c1 = Some piece →
  isKing piece = false →
  (owner piece = RED → r2 = r1 - 1 ∨ r2 = r1 - 2) ∧
  (owner piece = BLACK → r2 = r1 + 1 ∨ r2 = r1 + 2).
Proof.
  intros (p & Hp & _ & _ & _ & _ & _ & Hkind)%accepted_move Hpiece Hman.
  rewrite Hp in Hpiece. injection Hpiece as ->.
  assert (directionOk piece r1 r2 ∧
          (Z.abs (r2 - r1) = 1 ∨ Z.abs (r2 - r1) = 2)) as [Hd Habs].
  { destruct Hkind as [(Hr & _ & Hv)|(_ & Hr & _ & Hv)].
    - apply isJumpValid_true in Hv as (q & _ & Hq & _ & _ & _ & _ & _ & _ & Hd).
      rewrite Hp in Hq. injection Hq as <-. split; [done|by right].
    - apply isSimpleMoveValid_true in Hv as (q & Hq & _ & _ & _ & Hd).
      rewrite Hp in Hq. injection Hq as <-. split; [done|by left]. }
  destruct (Hd Hman) as [Hred Hblack].
  split; intros Ho; [specialize (Hred Ho)|specialize (Hblack Ho)]; lia.
Qed.

Lemma men_move_forward_witness :
  (owner (newPiece RED 4 3) = RED → 2 = 4 - 1 ∨ 2 = 4 - 2) ∧
  (owner (newPiece RED 4 3) = BLACK → 2 = 4 + 1 ∨ 2 = 4 + 2).
Proof.
  apply (men_move_forward (game captureState) true 4 3 2 1).
  - right. vm_compute. reflexivity.
  - vm_compute. reflexivity.
  - reflexivity.
Defined.
